(** * Strudel pattern engine: a shallow embedding of [pattern.mjs] and
    [signal.mjs], and the properties of its specification.

    Time is exact rational arithmetic ([Qc], normalised fractions), JavaScript
    exceptions are an explicit result type, the logger is an explicit list of
    entries, and the process-wide [__steps] flag is a section variable. *)

From Stdlib Require Import String.
From Stdlib Require Import QArith Qcanon Qround ZArith List Lia Lqa Bool.
Import ListNotations.

Local Open Scope Qc_scope.

(* ================================================================== *)
(** * Exceptions *)

(** A JavaScript exception is either an [Error] object carrying a message or
    any other thrown value (the time span code throws a plain string). *)
Inductive exn : Type :=
| JsError (message : string)
| JsThrown (payload : string).

(** [err.message]: defined for [Error] objects only. *)
Definition exn_message (e : exn) : string :=
  match e with
  | JsError m => m
  | JsThrown _ => "undefined"
  end.

Inductive Res (A : Type) : Type :=
| Ok (a : A)
| Throw (e : exn).
Arguments Ok {A} a.
Arguments Throw {A} e.

Definition bind {A B} (m : Res A) (k : A -> Res B) : Res B :=
  match m with
  | Ok a => k a
  | Throw e => Throw e
  end.

Notation "x <- m ;; k" := (bind m (fun x => k))
  (at level 61, m at next level, right associativity).

(** [xs.map(f)] when [f] may throw: the first exception wins. *)
Fixpoint mapM {A B} (f : A -> Res B) (xs : list A) : Res (list B) :=
  match xs with
  | [] => Ok []
  | x :: xs' => y <- f x ;; ys <- mapM f xs' ;; Ok (y :: ys)
  end.

(** [flatten(xs.map(f))]. *)
Definition flatMapM {A B} (f : A -> Res (list B)) (xs : list A) : Res (list B) :=
  ys <- mapM f xs ;; Ok (concat ys).

(** [removeUndefineds] of util.mjs. *)
Fixpoint removeUndefineds {A} (xs : list (option A)) : list A :=
  match xs with
  | [] => []
  | Some x :: xs' => x :: removeUndefineds xs'
  | None :: xs' => removeUndefineds xs'
  end.

(* ================================================================== *)
(** * Fractions

    fraction.mjs, timespan.mjs, hap.mjs and state.mjs are not among the
    sources at hand; what the pattern code calls from them is modelled from
    the data model of the specification. *)

Module Fraction.

(** Modelled from the spec: the integer [z] as a fraction ("a
    numerator/denominator pair ..., normalized"). *)
Definition ofZ (z : Z) : Qc := Q2Qc (inject_Z z).

(** Modelled from the spec: [floor], as an integer. *)
Definition floorZ (x : Qc) : Z := Qfloor (this x).

(** Modelled from the spec: [floor]. *)
Definition floor (x : Qc) : Qc := ofZ (floorZ x).

(** Modelled from the spec: [sam], "floor to the nearest integer, the start
    of the current cycle". *)
Definition sam (x : Qc) : Qc := floor x.

(** Modelled from the spec: [nextSam], the start of the next cycle. *)
Definition nextSam (x : Qc) : Qc := sam x + 1.

(** Modelled from the spec: [cyclePos], the fractional part. *)
Definition cyclePos (x : Qc) : Qc := x - sam x.

(** Modelled from the spec: equality, [eq]. *)
Definition eq (x y : Qc) : bool := Qeq_bool (this x) (this y).

(** Modelled from the spec: ordering, [lte]. *)
Definition lte (x y : Qc) : bool := Qle_bool (this x) (this y).

(** Modelled from the spec: ordering, [lt]. *)
Definition lt (x y : Qc) : bool := negb (Qle_bool (this y) (this x)).

(** Modelled from the spec: ordering, [gt]. *)
Definition gt (x y : Qc) : bool := lt y x.

(** Modelled from the spec: ordering, [gte]. *)
Definition gte (x y : Qc) : bool := lte y x.

(** Modelled from the spec: [abs], the absolute value. *)
Definition abs (x : Qc) : Qc := if lt x 0 then - x else x.

(** Modelled from the spec: [max], the greater of two fractions. *)
Definition max (x y : Qc) : Qc := if gt x y then x else y.

(** Modelled from the spec: [min], the lesser of two fractions. *)
Definition min (x y : Qc) : Qc := if lt x y then x else y.

(** Modelled from the spec: [div].  Division by the zero fraction is a
    failure: it is the divide-by-zero that the design notes say [fast(0)]
    avoids. *)
Definition div (x y : Qc) : Res Qc :=
  if eq y 0 then Throw (JsError "Division by Zero") else Ok (x / y).

(** Modelled from the spec: [mulmaybe], "None if either side is None". *)
Definition mulmaybe (x : Qc) (y : option Qc) : option Qc :=
  match y with
  | Some y' => Some (x * y')
  | None => None
  end.

(** Modelled from the spec: [lcm] of two fractions, the lcm of the
    numerators over the gcd of the denominators. *)
Definition lcm2 (x y : Qc) : Qc :=
  Q2Qc (Z.lcm (Qnum (this x)) (Qnum (this y))
        # Pos.gcd (Qden (this x)) (Qden (this y))).

(** Modelled from the spec: the variadic [lcm] of step counts.  Undefined
    arguments are skipped, and the result is undefined when none is left. *)
Definition lcm (xs : list (option Qc)) : option Qc :=
  match removeUndefineds xs with
  | [] => None
  | x :: rest => Some (fold_left lcm2 rest x)
  end.

End Fraction.

(* ================================================================== *)
(** * Time spans *)

(** Modelled from the spec: [Timespan], "{ begin: Rational, end: Rational }". *)
Record TimeSpan : Type := mkTimeSpan { begin : Qc; end_ : Qc }.

Module TimeSpanOps.

(** Modelled from the spec: [withTime(f)] "maps both ends". *)
Definition withTime (f : Qc -> Res Qc) (s : TimeSpan) : Res TimeSpan :=
  b <- f (begin s) ;; e <- f (end_ s) ;; Ok (mkTimeSpan b e).

(** Modelled from the spec: [withCycle(f)], like [withTime] with the time
    taken relative to the cycle of [begin]. *)
Definition withCycle (f : Qc -> Res Qc) (s : TimeSpan) : Res TimeSpan :=
  let sam := Fraction.sam (begin s) in
  b <- f (begin s - sam) ;; e <- f (end_ s - sam) ;;
  Ok (mkTimeSpan (sam + b) (sam + e)).

(** Modelled from the spec: [wholeCycle], the cycle containing a time
    ("whole = cycleContaining(begin)"). *)
Definition wholeCycle (x : Qc) : TimeSpan :=
  mkTimeSpan (Fraction.sam x) (Fraction.nextSam x).

(** Modelled from the spec: [intersection], "empty intersection => None;
    adjacent endpoints do not intersect".  A zero-width intersection is kept
    unless it is the end point of a span of non-zero width. *)
Definition intersection (a b : TimeSpan) : option TimeSpan :=
  let ib := Fraction.max (begin a) (begin b) in
  let ie := Fraction.min (end_ a) (end_ b) in
  if Fraction.gt ib ie then None
  else if Fraction.eq ib ie
          && ((Fraction.eq ib (end_ a) && Fraction.lt (begin a) (end_ a))
              || (Fraction.eq ib (end_ b) && Fraction.lt (begin b) (end_ b)))
  then None
  else Some (mkTimeSpan ib ie).


(** Modelled from the spec: the loop of [spanCycles], one piece per cycle
    touched.  [fuel] bounds the number of iterations; [spanCycles] supplies
    enough (lemma [spanCycles_chain]). *)
Fixpoint spanCycles_loop (fuel : nat) (b e : Qc) : list TimeSpan :=
  match fuel with
  | O => []
  | S fuel' =>
      if Fraction.gt e b then
        if Fraction.eq (Fraction.sam b) (Fraction.sam e)
        then [mkTimeSpan b e]
        else mkTimeSpan b (Fraction.nextSam b)
             :: spanCycles_loop fuel' (Fraction.nextSam b) e
      else []
  end.

(** Modelled from the spec: one more than the number of integer boundaries
    between the two ends. *)
Definition spanCycles_fuel (s : TimeSpan) : nat :=
  S (Z.to_nat (Fraction.floorZ (end_ s) - Fraction.floorZ (begin s))).

(** Modelled from the spec: [spanCycles], "the ordered list of sub-timespans
    obtained by splitting at every integer boundary strictly inside
    (begin, end)"; a zero-width span is its own single piece. *)
Definition spanCycles (s : TimeSpan) : list TimeSpan :=
  if Fraction.eq (begin s) (end_ s) then [s]
  else spanCycles_loop (spanCycles_fuel s) (begin s) (end_ s).

End TimeSpanOps.
Import TimeSpanOps.

(* ================================================================== *)
(** * Events (haps) and query state *)

(** Modelled from the spec: the context bag of an event.  It keeps the source
    locations and the tags, which concatenate when two events are combined. *)
Record Context : Type := mkContext {
  locations : list (nat * nat);
  tags : list string
}.

(** Modelled from the spec: the empty context [{}]. *)
Definition emptyContext : Context := mkContext [] [].

(** Modelled from the spec: [Event (Hap)],
    "{ whole: Option<Timespan>, part: Timespan, value: V, context: Ctx }". *)
Record Hap (A : Type) : Type := mkHap {
  whole : option TimeSpan;
  part : TimeSpan;
  value : A;
  context : Context
}.
Arguments mkHap {A} whole part value context.
Arguments whole {A} h.
Arguments part {A} h.
Arguments value {A} h.
Arguments context {A} h.

(** Modelled from the spec: [new Hap(whole, part, value)], with the empty
    context. *)
Definition newHap {A} (w : option TimeSpan) (p : TimeSpan) (v : A) : Hap A :=
  mkHap w p v emptyContext.

Module HapOps.

(** Modelled from the spec: [wholeOrPart], the whole of a discrete event and
    the part of a continuous one. *)
Definition wholeOrPart {A} (h : Hap A) : TimeSpan :=
  match whole h with
  | Some w => w
  | None => part h
  end.

(** Modelled from the spec: [withValue], the value transform of an event. *)
Definition withValue {A B} (f : A -> B) (h : Hap A) : Hap B :=
  mkHap (whole h) (part h) (f (value h)) (context h).

(** Modelled from the spec: [withSpan], the span transform of an event:
    [func] is applied to the whole, when present, and to the part. *)
Definition withSpan {A} (f : TimeSpan -> Res TimeSpan) (h : Hap A) : Res (Hap A) :=
  w <- match whole h with
       | Some w => w' <- f w ;; Ok (Some w')
       | None => Ok None
       end ;;
  p <- f (part h) ;;
  Ok (mkHap w p (value h) (context h)).

(** Modelled from the spec: [setContext], the context transform of an
    event. *)
Definition setContext {A} (c : Context) (h : Hap A) : Hap A :=
  mkHap (whole h) (part h) (value h) c.

(** Modelled from the spec: [a.combineContext(b)], "locations and tags
    concatenate": those of [a] followed by those of [b]. *)
Definition combineContext {A B} (a : Hap A) (b : Hap B) : Context :=
  mkContext (locations (context a) ++ locations (context b))
            (tags (context a) ++ tags (context b)).

End HapOps.
Import HapOps.

(** Modelled from the spec: [State],
    "{ span: Timespan, controls: Map<String, Value> }". *)
Record State : Type := mkState {
  span : TimeSpan;
  controls : list (string * string)
}.

(** Modelled from the spec: [state.setSpan(span)]. *)
Definition setSpan (st : State) (s : TimeSpan) : State :=
  mkState s (controls st).

(* ================================================================== *)
(** * Patterns *)

(** A pattern: the query function, the optional step count [_steps] and the
    [__pure] side band. *)
Record Pattern (A : Type) : Type := mkPattern {
  query : State -> Res (list (Hap A));
  _steps : option Qc;
  __pure : option A
}.
Arguments mkPattern {A} query _steps __pure.
Arguments query {A} p st.
Arguments _steps {A} p.
Arguments __pure {A} p.

(** [new Pattern(query, steps)]. *)
Definition newPattern {A} (q : State -> Res (list (Hap A))) (steps : option Qc)
  : Pattern A :=
  mkPattern q steps None.

(** [pat.setSteps(steps)] and the assignment [pat._steps = steps]. *)
Definition setSteps {A} (steps : option Qc) (p : Pattern A) : Pattern A :=
  mkPattern (query p) steps (__pure p).

(** The getter [hasSteps]. *)
Definition hasSteps {A} (p : Pattern A) : bool :=
  match _steps p with
  | Some _ => true
  | None => false
  end.

(** A number handed to a registered function is either a JavaScript number
    or a [Fraction] object; the test [factor === 0] only holds for the number
    zero.  Numbers are represented by the fraction [Fraction(x)] makes of
    them. *)
Inductive JsNum : Type :=
| Num (q : Qc)
| Frac (q : Qc).

(** [Fraction(factor)]. *)
Definition toFraction (x : JsNum) : Qc :=
  match x with
  | Num q => q
  | Frac q => q
  end.

(** [factor === 0]. *)
Definition isNumberZero (x : JsNum) : bool :=
  match x with
  | Num q => Fraction.eq q 0
  | Frac _ => false
  end.

(** One entry of the logger: message and level. *)
Inductive LogLevel : Type := LevelError | LevelWarning | LevelInfo.

(** An entry of the log. *)
Definition LogEntry : Type := (string * LogLevel)%type.

(** An argument of [stepcat]: a pattern, or a pair of a time (which may be
    undefined) and a pattern. *)
Inductive StepArg (A : Type) : Type :=
| Bare (pat : Pattern A)
| Timed (time : option Qc) (pat : Pattern A).
Arguments Bare {A} pat.
Arguments Timed {A} time pat.

(** The amount of [shrink]: a number, or a pair of a number and a number of
    repetitions. *)
Inductive Amount : Type :=
| Single (amount : Qc)
| Repeated (amount times : Qc).

Section Engine.

(** The process-wide flag set by [calculateSteps]. *)
Variable __steps : bool.

(** [pat.withSteps(f)]: a copy with the step count mapped, when step counting is
    on and the pattern has steps. *)
Definition withSteps {A} (f : Qc -> Res Qc) (p : Pattern A) : Res (Pattern A) :=
  if negb __steps then Ok p
  else match _steps p with
       | None => Ok (newPattern (query p) None)
       | Some s => s' <- f s ;; Ok (newPattern (query p) (Some s'))
       end.

(* ---------------------------------------------------------------- *)
(** ** Functor and applicative operations *)

(** [pat.withValue(func)]: the function applied to the value of every event;
    the step count is kept. *)
Definition withValue {A B} (func : A -> B) (p : Pattern A) : Pattern B :=
  newPattern (fun state => haps <- query p state ;;
                           Ok (map (HapOps.withValue func) haps))
             (_steps p).

(** [pat.fmap(func)], an alias of [withValue]. *)
Definition fmap {A B} (func : A -> B) (p : Pattern A) : Pattern B :=
  withValue func p.



(** [pat_func.appLeft(pat_val)]: the structure comes from the functions; for
    every event of functions the values are queried over its whole (or its
    part, when it is continuous). *)
Definition appLeft {A B} (pat_val : Pattern A) (pat_func : Pattern (A -> B))
  : Pattern B :=
  let query := fun state =>
    hap_funcs <- query pat_func state ;;
    flatMapM (fun hap_func =>
      hap_vals <- query pat_val (setSpan state (wholeOrPart hap_func)) ;;
      Ok (removeUndefineds (map (fun hap_val =>
            match intersection (part hap_func) (part hap_val) with
            | Some new_part =>
                Some (mkHap (whole hap_func) new_part
                            (value hap_func (value hap_val))
                            (combineContext hap_val hap_func))
            | None => None
            end) hap_vals)))
      hap_funcs in
  newPattern query (_steps pat_func).


(* ---------------------------------------------------------------- *)
(** ** Utility methods *)

(** [queryArc]: a query that throws is logged and answered by the empty
    list.  The result is the list of events and the log entries written. *)
Definition queryArc {A} (p : Pattern A) (b e : Qc)
    (ctl : list (string * string)) : list (Hap A) * list LogEntry :=
  match query p (mkState (mkTimeSpan b e) ctl) with
  | Ok haps => (haps, [])
  | Throw err =>
      ([], [(String.append "[query]: " (exn_message err), LevelError)])
  end.

(** [pat.splitQueries()]: the query is answered cycle by cycle. *)
Definition splitQueries {A} (pat : Pattern A) : Pattern A :=
  newPattern (fun state =>
                flatMapM (fun subspan => query pat (setSpan state subspan))
                         (spanCycles (span state)))
             None.

(** [pat.withQuerySpan(func)]. *)
Definition withQuerySpan {A} (func : TimeSpan -> Res TimeSpan) (p : Pattern A)
  : Pattern A :=
  newPattern (fun state => s <- func (span state) ;; query p (setSpan state s))
             None.

(** [pat.withQuerySpanMaybe(func)]: no event when [func] gives no span. *)
Definition withQuerySpanMaybe {A} (func : TimeSpan -> Res (option TimeSpan))
    (pat : Pattern A) : Pattern A :=
  newPattern (fun state =>
                s <- func (span state) ;;
                match s with
                | None => Ok []
                | Some s' => query pat (setSpan state s')
                end)
             None.

(** [pat.withQueryTime(func)]: [func] on both ends of the query span. *)
Definition withQueryTime {A} (func : Qc -> Res Qc) (p : Pattern A) : Pattern A :=
  newPattern (fun state =>
                s <- withTime func (span state) ;; query p (setSpan state s))
             None.

(** [pat.withHapSpan(func)]: [func] on the spans of every event returned. *)
Definition withHapSpan {A} (func : TimeSpan -> Res TimeSpan) (p : Pattern A)
  : Pattern A :=
  newPattern (fun state => haps <- query p state ;;
                           mapM (HapOps.withSpan func) haps)
             None.

(** [pat.withHapTime(func)]: [func] on both ends of the spans of every event. *)
Definition withHapTime {A} (func : Qc -> Res Qc) (p : Pattern A) : Pattern A :=
  withHapSpan (withTime func) p.

(** [pat.withHaps(func)]: [func] on the list of events; the step count is kept. *)
Definition withHaps {A} (func : list (Hap A) -> State -> Res (list (Hap A)))
    (p : Pattern A) : Pattern A :=
  newPattern (fun state => haps <- query p state ;; func haps state)
             (_steps p).

(** [pat.withHap(func)]: [func] on every event. *)
Definition withHap {A} (func : Hap A -> Res (Hap A)) (p : Pattern A) : Pattern A :=
  withHaps (fun haps _ => mapM func haps) p.

(** [pat.withContext(func)]: [func] on the context of every event; the
    [__pure] side band is kept. *)
Definition withContext {A} (func : Context -> Context) (p : Pattern A)
  : Pattern A :=
  let result := withHap (fun hap => Ok (setContext (func (context hap)) hap)) p in
  match __pure p with
  | Some v => mkPattern (query result) (_steps result) (Some v)
  | None => result
  end.


(** [pat.filterValues(value_test)]; the step count is kept. *)
Definition filterValues {A} (value_test : A -> bool) (p : Pattern A) : Pattern A :=
  setSteps (_steps p)
    (newPattern (fun state => haps <- query p state ;;
                              Ok (filter (fun hap => value_test (value hap)) haps))
                None).

(* ---------------------------------------------------------------- *)
(** ** Elemental patterns *)

(** [gap(steps)]: no event, with the given step count. *)
Definition gap {A} (steps : Qc) : Pattern A :=
  newPattern (fun _ => Ok []) (Some steps).

(** [silence = gap(1)]. *)
Definition silence {A} : Pattern A := gap 1.

(** [nothing = gap(0)]. *)
Definition nothing {A} : Pattern A := gap 0.

(** [pure(value)]: one event per cycle of the query span. *)
Definition pure {A} (value : A) : Pattern A :=
  let query := fun state =>
    Ok (map (fun subspan => newHap (Some (wholeCycle (begin subspan))) subspan value)
            (spanCycles (span state))) in
  mkPattern query (Some 1) (Some value).

(** signal.mjs, [steady(value)]: one continuous event over the query span. *)
Definition steady {A} (value : A) : Pattern A :=
  newPattern (fun state => Ok [newHap None (span state) value]) None.

(** [signal(func)]: one continuous event, sampled at the begin of the span. *)
Definition signal {A} (func : Qc -> A) : Pattern A :=
  newPattern (fun state => Ok [newHap None (span state) (func (begin (span state)))])
             None.

(* ---------------------------------------------------------------- *)
(** ** Methods generated by [register]

    For a registered function [register] installs the method [_name], which
    calls the function on plain arguments, and the method [name], which
    reifies its arguments first.  A plain argument reifies to a [pure]
    pattern without source location, so [name] calls the function on the
    argument itself and passes the result through [withContext], appending
    the (empty) list of locations.  Both methods copy the step count of the
    receiver when the function was registered with [preserveSteps]. *)

(** [if (preserveSteps) result._steps = pat._steps]. *)
Definition preserve {A} (preserveSteps : bool) (pat result : Pattern A)
  : Pattern A :=
  if preserveSteps then setSteps (_steps pat) result else result.

(** The method [pat._name(args)]. *)
Definition underscored {A} (preserveSteps : bool) (pat : Pattern A)
    (r : Res (Pattern A)) : Res (Pattern A) :=
  result <- r ;; Ok (preserve preserveSteps pat result).

(** The method [pat.name(args)] called with plain arguments. *)
Definition patternified {A} (preserveSteps : bool) (pat : Pattern A)
    (r : Res (Pattern A)) : Res (Pattern A) :=
  result <- r ;;
  let pureLocs := [] in
  let result := withContext (fun context =>
                   mkContext (locations context ++ pureLocs) (tags context))
                 result in
  Ok (preserve preserveSteps pat result).

(* ---------------------------------------------------------------- *)
(** ** Concatenation *)

(** [stack(...pats)]: the events of every pattern, in the order of the
    arguments. *)
Definition stack {A} (pats : list (Pattern A)) : Pattern A :=
  let query := fun state => flatMapM (fun pat => query pat state) pats in
  let result := newPattern query None in
  if __steps then setSteps (Fraction.lcm (map _steps pats)) result else result.

(** [fast]: the registered function, with [preserveSteps]. *)
Definition fast_func {A} (factor : JsNum) (pat : Pattern A) : Pattern A :=
  if isNumberZero factor then silence
  else
    let factor := toFraction factor in
    let fastQuery := withQueryTime (fun t => Ok (t * factor)) pat in
    setSteps (_steps pat)
             (withHapTime (fun t => Fraction.div t factor) fastQuery).

(** [pat._fast(factor)].  (For the number zero the method writes the step
    count into the shared [silence] object; here the result is a value of
    its own.) *)
Definition _fast {A} (factor : JsNum) (pat : Pattern A) : Pattern A :=
  preserve true pat (fast_func factor pat).

(** [pat.fast(factor)] with a plain factor. *)
Definition fast {A} (factor : JsNum) (pat : Pattern A) : Res (Pattern A) :=
  patternified true pat (Ok (fast_func factor pat)).

(** [_mod] of util.mjs, [((n % m) + m) % m] on numbers; [NaN] for [m = 0]. *)
Definition _mod (n m : Z) : option Z :=
  if (m =? 0)%Z then None else Some (Z.rem (Z.rem n m + m) m).

(** The [query] function of [slowcat]. *)
Definition slowcat_query {A} (pats : list (Pattern A)) (state : State)
  : Res (list (Hap A)) :=
  let span := span state in
  let pat_n := _mod (Fraction.floorZ (Fraction.sam (begin span)))
                    (Z.of_nat (length pats)) in
  match (match pat_n with
         | Some n => if (n <? 0)%Z then None else nth_error pats (Z.to_nat n)
         | None => None
         end) with
  | None => Ok []
  | Some pat =>
      d <- Fraction.div (begin span) (Fraction.ofZ (Z.of_nat (length pats))) ;;
      let offset := Fraction.floor (begin span) - Fraction.floor d in
      s <- withTime (fun t => Ok (t - offset)) span ;;
      query (withHapTime (fun t => Ok (t + offset)) pat) (setSpan state s)
  end.

(** [slowcat(...pats)]: a single pattern is returned as it is. *)
Definition slowcat {A} (pats : list (Pattern A)) : Pattern A :=
  match pats with
  | [pat] => pat
  | _ =>
      let steps := if __steps then Fraction.lcm (map _steps pats) else None in
      setSteps steps (splitQueries (newPattern (slowcat_query pats) None))
  end.

(** [fastcat].  (Its last [if] writes a property of the argument array and
    has no effect on the result.) *)
Definition fastcat {A} (pats : list (Pattern A)) : Pattern A :=
  let result := slowcat pats in
  if (1 <? length pats)%nat
  then
    let n := Fraction.ofZ (Z.of_nat (length pats)) in
    setSteps (Some n) (_fast (Num n) result)
  else result.

(* ---------------------------------------------------------------- *)
(** ** Structural and temporal transformations *)

(** [early]: the registered function, with [preserveSteps]. *)
Definition early_func {A} (offset : Qc) (pat : Pattern A) : Pattern A :=
  withHapTime (fun t => Ok (t - offset))
              (withQueryTime (fun t => Ok (t + offset)) pat).

(** [pat._early(offset)]. *)
Definition _early {A} (offset : Qc) (pat : Pattern A) : Pattern A :=
  preserve true pat (early_func offset pat).

(** [late]: the registered function, with [preserveSteps]. *)
Definition late_func {A} (offset : Qc) (pat : Pattern A) : Pattern A :=
  _early (0 - offset) pat.

(** [pat._late(offset)]. *)
Definition _late {A} (offset : Qc) (pat : Pattern A) : Pattern A :=
  preserve true pat (late_func offset pat).

(** [fastGap]: the registered function.  [qf] maps the query span, [ef] the
    events. *)
Definition fastGap_func {A} (factor : Qc) (pat : Pattern A) : Pattern A :=
  let qf := fun span =>
    let cycle := Fraction.sam (begin span) in
    let bpos := Fraction.min ((begin span - cycle) * factor) 1 in
    let epos := Fraction.min ((end_ span - cycle) * factor) 1 in
    if Fraction.gte bpos 1 then Ok None
    else Ok (Some (mkTimeSpan (cycle + bpos) (cycle + epos))) in
  let ef := fun hap : Hap A =>
    let begin_ := begin (part hap) in
    let end' := end_ (part hap) in
    let cycle := Fraction.sam begin_ in
    bp <- Fraction.div (begin_ - cycle) factor ;;
    let beginPos := Fraction.min bp 1 in
    ep <- Fraction.div (end' - cycle) factor ;;
    let endPos := Fraction.min ep 1 in
    let newPart := mkTimeSpan (cycle + beginPos) (cycle + endPos) in
    newWhole <- match whole hap with
                | None => Ok None
                | Some w =>
                    db <- Fraction.div (begin_ - begin w) factor ;;
                    de <- Fraction.div (end_ w - end') factor ;;
                    Ok (Some (mkTimeSpan (begin newPart - db) (end_ newPart + de)))
                end ;;
    Ok (mkHap newWhole newPart (value hap) (context hap)) in
  splitQueries (withHap ef (withQuerySpanMaybe qf pat)).

(** [pat._fastGap(factor)]. *)
Definition _fastGap {A} (factor : Qc) (pat : Pattern A) : Pattern A :=
  preserve false pat (fastGap_func factor pat).

(** [compress]: the registered function. *)
Definition compress_func {A} (b e : Qc) (pat : Pattern A) : Res (Pattern A) :=
  if Fraction.gt b e || Fraction.gt b 1 || Fraction.gt e 1
     || Fraction.lt b 0 || Fraction.lt e 0
  then Ok silence
  else
    f <- Fraction.div 1 (e - b) ;;
    Ok (_late b (_fastGap f pat)).

(** [pat._compress(b, e)]. *)
Definition _compress {A} (b e : Qc) (pat : Pattern A) : Res (Pattern A) :=
  underscored false pat (compress_func b e pat).

(** [pat.compress(b, e)] with plain arguments. *)
Definition compress {A} (b e : Qc) (pat : Pattern A) : Res (Pattern A) :=
  patternified false pat (compress_func b e pat).

(** [slow]: the registered function. *)
Definition slow_func {A} (factor : JsNum) (pat : Pattern A) : Res (Pattern A) :=
  if isNumberZero factor then Ok silence
  else
    f <- Fraction.div 1 (toFraction factor) ;;
    Ok (_fast (Frac f) pat).

(** [pat._slow(factor)]. *)
Definition _slow {A} (factor : JsNum) (pat : Pattern A) : Res (Pattern A) :=
  underscored false pat (slow_func factor pat).

(** [pat.slow(factor)] with a plain factor. *)
Definition slow {A} (factor : JsNum) (pat : Pattern A) : Res (Pattern A) :=
  patternified false pat (slow_func factor pat).

(** [zoom]: the registered function. *)
Definition zoom_func {A} (s e : Qc) (pat : Pattern A) : Pattern A :=
  if Fraction.gte s e then nothing
  else
    let d := e - s in
    let steps := if __steps
                 then match _steps pat with
                      | Some st => Fraction.mulmaybe st (Some d)
                      | None => None
                      end
                 else None in
    setSteps steps
      (splitQueries
         (withHapSpan (withCycle (fun t => Fraction.div (t - s) d))
            (withQuerySpan (withCycle (fun t => Ok (t * d + s))) pat))).

(** [pat.zoom(s, e)] with plain arguments. *)
Definition zoom {A} (s e : Qc) (pat : Pattern A) : Res (Pattern A) :=
  patternified false pat (Ok (zoom_func s e pat)).

(* ---------------------------------------------------------------- *)
(** ** Stepwise functions *)

(** [pace]: the registered function. *)
Definition pace_func {A} (targetSteps : Qc) (pat : Pattern A) : Res (Pattern A) :=
  match _steps pat with
  | None => Ok pat
  | Some st =>
      if Fraction.eq st 0 then Ok nothing
      else
        f <- Fraction.div targetSteps st ;;
        Ok (setSteps (Some targetSteps) (_fast (Frac f) pat))
  end.

(** [pat.pace(targetSteps)] with a plain argument. *)
Definition pace {A} (targetSteps : Qc) (pat : Pattern A) : Res (Pattern A) :=
  patternified false pat (pace_func targetSteps pat).

(** [polymeter] called with patterns (the old list form is not covered).
    [steps.eq] on an undefined [steps] is a [TypeError]. *)
Definition polymeter {A} (args : list (Pattern A)) : Res (Pattern A) :=
  let args := filter hasSteps args in
  if (length args =? 0)%nat then Ok silence
  else
    match Fraction.lcm (map _steps args) with
    | None => Throw (JsError "Cannot read properties of undefined (reading 'eq')")
    | Some steps =>
        if Fraction.eq steps 0 then Ok nothing
        else
          paced <- mapM (pace steps) args ;;
          Ok (setSteps (Some steps) (stack paced))
    end.

(** [findsteps] of [stepcat]: the time of an argument, [x._steps ?? 1] for a
    pattern. *)
Definition findsteps {A} (x : StepArg A) : option Qc * Pattern A :=
  match x with
  | Timed time pat => (time, pat)
  | Bare pat => (match _steps pat with Some st => Some st | None => Some 1 end, pat)
  end.

(** [times.reduce((a, b) => a.add(b), Fraction(0))]. *)
Definition sumFractions (xs : list Qc) : Qc :=
  fold_left Qcplus xs 0.

(** The loop of [stepcat] that compresses each pattern into its slice. *)
Fixpoint stepcat_loop {A} (total begin_ : Qc) (timepats : list (Qc * Pattern A))
  : Res (list (Pattern A)) :=
  match timepats with
  | [] => Ok []
  | (time, pat) :: rest =>
      if Fraction.eq time 0 then stepcat_loop total begin_ rest
      else
        let end' := begin_ + time in
        b <- Fraction.div begin_ total ;;
        e <- Fraction.div end' total ;;
        c <- _compress b e pat ;;
        cs <- stepcat_loop total end' rest ;;
        Ok (c :: cs)
  end.

(** [stepcat] once every time is defined. *)
Definition stepcat_filled {A} (timepats : list (Qc * Pattern A)) : Res (Pattern A) :=
  match timepats with
  | [(time, pat)] => withSteps (fun _ => Ok time) pat
  | _ =>
      let total := sumFractions (map fst timepats) in
      pats <- stepcat_loop total 0 timepats ;;
      Ok (setSteps (Some total) (stack pats))
  end.

(** [stepcat(...timepats)]. *)
Definition stepcat {A} (timepats : list (StepArg A)) : Res (Pattern A) :=
  if (length timepats =? 0)%nat then Ok nothing
  else
    let timepats := map findsteps timepats in
    if existsb (fun x => match fst x with None => true | Some _ => false end) timepats
    then
      let times := removeUndefineds (map fst timepats) in
      if (length times =? 0)%nat then Ok (fastcat (map snd timepats))
      else if (length times =? length timepats)%nat then Ok nothing
      else
        avg <- Fraction.div (sumFractions times)
                            (Fraction.ofZ (Z.of_nat (length times))) ;;
        stepcat_filled
          (map (fun x => (match fst x with Some time => time | None => avg end, snd x))
               timepats)
    else
      stepcat_filled
        (map (fun x => (match fst x with Some time => time | None => 0 end, snd x))
             timepats).

(** [take]: the registered function. *)
Definition take_func {A} (i : Qc) (pat : Pattern A) : Res (Pattern A) :=
  match _steps pat with
  | None => Ok nothing
  | Some st =>
      if Fraction.lte st 0 then Ok nothing
      else if Fraction.eq i 0 then Ok nothing
      else
        let flip := Fraction.lt i 0 in
        let i := if flip then Fraction.abs i else i in
        frac <- Fraction.div i st ;;
        if Fraction.lte frac 0 then Ok nothing
        else if Fraction.gte frac 1 then Ok pat
        else if flip then zoom (1 - frac) 1 pat
        else zoom 0 frac pat
  end.

(** [pat.take(i)] with a plain argument. *)
Definition take {A} (i : Qc) (pat : Pattern A) : Res (Pattern A) :=
  patternified false pat (take_func i pat).

(** [drop]: the registered function. *)
Definition drop_func {A} (i : Qc) (pat : Pattern A) : Res (Pattern A) :=
  match _steps pat with
  | None => Ok nothing
  | Some st =>
      if Fraction.lt i 0 then take (st + i) pat
      else take (0 - (st - i)) pat
  end.

(** [pat.drop(i)] with a plain argument. *)
Definition drop {A} (i : Qc) (pat : Pattern A) : Res (Pattern A) :=
  patternified false pat (drop_func i pat).

(** [expand]: the registered function. *)
Definition expand_func {A} (factor : Qc) (pat : Pattern A) : Res (Pattern A) :=
  withSteps (fun t => Ok (t * factor)) pat.

(** [pat.expand(factor)] with a plain argument. *)
Definition expand {A} (factor : Qc) (pat : Pattern A) : Res (Pattern A) :=
  patternified false pat (expand_func factor pat).

(** [contract]: the registered function. *)
Definition contract_func {A} (factor : Qc) (pat : Pattern A) : Res (Pattern A) :=
  withSteps (fun t => Fraction.div t factor) pat.

(** [pat.contract(factor)] with a plain argument. *)
Definition contract {A} (factor : Qc) (pat : Pattern A) : Res (Pattern A) :=
  patternified false pat (contract_func factor pat).

(** The [for] loops of [shrinklist]: [i] runs from [0] while [i < times];
    [n] counts the iterations left. *)
Fixpoint shrink_ranges_start (n : nat) (i : Z) (seg : Qc) : list (Qc * Qc) :=
  match n with
  | O => []
  | S n' =>
      let s := seg * Fraction.ofZ i in
      if Fraction.gt s 1 then []
      else (s, 1) :: shrink_ranges_start n' (i + 1)%Z seg
  end.

(** The loop of [shrinklist] for a negative amount. *)
Fixpoint shrink_ranges_end (n : nat) (i : Z) (seg : Qc) : list (Qc * Qc) :=
  match n with
  | O => []
  | S n' =>
      let e := 1 - seg * Fraction.ofZ i in
      if Fraction.lt e 0 then []
      else (0, e) :: shrink_ranges_end n' (i + 1)%Z seg
  end.

(** [pat.shrinklist(amount)]. *)
Definition shrinklist {A} (amount : Amount) (pat : Pattern A)
  : Res (list (Pattern A)) :=
  match _steps pat with
  | None => Ok [pat]
  | Some st =>
      let '(amountv, times, timesIsNumberZero) :=
        match amount with
        | Single a => (a, st, false)
        | Repeated a n => (a, n, Fraction.eq n 0)
        end in
      if timesIsNumberZero then Ok [pat]
      else
        let iterations := Z.to_nat (Qceiling (this times)) in
        let fromstart := Fraction.gt amountv 0 in
        ranges <-
          (if fromstart then
             d <- Fraction.div 1 st ;;
             Ok (shrink_ranges_start iterations 0 (d * amountv))
           else
             let amountv := 0 - amountv in
             d <- Fraction.div 1 st ;;
             Ok (shrink_ranges_end iterations 0 (d * amountv))) ;;
        mapM (fun x => zoom (fst x) (snd x) pat) ranges
  end.

(** [a.add(b._steps)]: an undefined step count adds nothing. *)
Definition sumSteps {A} (list : list (Pattern A)) : Qc :=
  fold_left (fun a b => a + match _steps b with Some st => st | None => 0 end)
            list 0.

(** [shrink]: the registered function. *)
Definition shrink_func {A} (amount : Amount) (pat : Pattern A) : Res (Pattern A) :=
  if negb (hasSteps pat) then Ok nothing
  else
    list <- shrinklist amount pat ;;
    result <- stepcat (map Bare list) ;;
    Ok (setSteps (Some (sumSteps list)) result).

(** [pat.shrink(amount)] with a plain argument. *)
Definition shrink {A} (amount : Amount) (pat : Pattern A) : Res (Pattern A) :=
  patternified false pat (shrink_func amount pat).

(** [grow]: the registered function, for a number. *)
Definition grow_func {A} (amount : Qc) (pat : Pattern A) : Res (Pattern A) :=
  if negb (hasSteps pat) then Ok nothing
  else
    list <- shrinklist (Single (0 - amount)) pat ;;
    let list := rev list in
    result <- stepcat (map Bare list) ;;
    Ok (setSteps (Some (sumSteps list)) result).

(** [pat.grow(amount)] with a plain argument. *)
Definition grow {A} (amount : Qc) (pat : Pattern A) : Res (Pattern A) :=
  patternified false pat (grow_func amount pat).

(** [zip]: with no argument left [steps] is undefined, which [Fraction]
    reads as zero. *)
Definition zip {A} (pats : list (Pattern A)) : Res (Pattern A) :=
  let pats := filter hasSteps pats in
  slowed <- mapM (fun pat =>
                    _slow (Frac (match _steps pat with Some st => st | None => 0 end))
                          pat) pats ;;
  let zipped := slowcat slowed in
  let steps := Fraction.lcm (map _steps pats) in
  Ok (setSteps steps
        (_fast (Frac (match steps with Some st => st | None => 0 end)) zipped)).

(* ---------------------------------------------------------------- *)
(** ** Random signals (signal.mjs) *)

(** 32-bit integer arithmetic of the bit operators. *)
Definition toInt32 (z : Z) : Z :=
  ((z + 2147483648) mod 4294967296 - 2147483648)%Z.

(** [x << n]. *)
Definition shl32 (x n : Z) : Z := toInt32 (Z.shiftl (toInt32 x) n).

(** [x >> n]. *)
Definition sar32 (x n : Z) : Z := Z.shiftr (toInt32 x) n.

(** [x ^ y]. *)
Definition xor32 (x y : Z) : Z := toInt32 (Z.lxor (toInt32 x) (toInt32 y)).

(** [xorwise]: one round of xorshift. *)
Definition xorwise (x : Z) : Z :=
  let a := xor32 (shl32 x 13) x in
  let b := xor32 (sar32 a 17) a in
  xor32 (shl32 b 5) b.

(** [Math.trunc] on a fraction. *)
Definition truncZ (x : Qc) : Z :=
  Z.quot (Qnum (this x)) (Z.pos (Qden (this x))).

(** [_frac]: [x - Math.trunc(x)]. *)
Definition _frac (x : Qc) : Qc := x - Fraction.ofZ (truncZ x).

(** Number arithmetic is carried out exactly on fractions; the two agree
    wherever the intermediate values are integers or dyadic, as at time 0. *)
Definition timeToIntSeed (x : Qc) : Z :=
  xorwise (truncZ (_frac (x / Fraction.ofZ 300) * Fraction.ofZ 536870912)).

(** [intSeedToRand]: [(x % 536870912) / 536870912], with the remainder of
    the sign of [x]. *)
Definition intSeedToRand (x : Z) : Qc :=
  Fraction.ofZ (Z.rem x 536870912) / Fraction.ofZ 536870912.

(** [timeToRand]. *)
Definition timeToRand (x : Qc) : Qc :=
  Fraction.abs (intSeedToRand (timeToIntSeed x)).

(** [rand = signal(timeToRand)]. *)
Definition rand : Pattern Qc := signal timeToRand.

(** [degradeByWith]: the registered function, with [preserveSteps].  The
    events of [withPat] whose value is greater than [x] are kept. *)
Definition degradeByWith_func {A} (withPat : Pattern Qc) (x : Qc) (pat : Pattern A)
  : Pattern A :=
  appLeft (filterValues (fun v => Fraction.gt v x) withPat)
          (fmap (fun a (_ : Qc) => a) pat).

(** [pat._degradeByWith(withPat, x)]. *)
Definition _degradeByWith {A} (withPat : Pattern Qc) (x : Qc) (pat : Pattern A)
  : Pattern A :=
  preserve true pat (degradeByWith_func withPat x pat).

(** [degradeBy]: the registered function, with [preserveSteps]. *)
Definition degradeBy_func {A} (x : Qc) (pat : Pattern A) : Pattern A :=
  _degradeByWith rand x pat.

(** [pat.degradeBy(x)] with a plain amount. *)
Definition degradeBy {A} (x : Qc) (pat : Pattern A) : Res (Pattern A) :=
  patternified true pat (Ok (degradeBy_func x pat)).

(* ---------------------------------------------------------------- *)
(** ** Further methods of pattern.mjs *)

(** [Object.assign({}, a.context, b.context, {locations: ...})] of
    [bindWhole]: the locations of [a] followed by those of [b]; for any other
    key the entry of [b] wins.  An empty list of tags stands for a context
    without the key. *)
Definition assignContext (a b : Context) : Context :=
  mkContext (locations a ++ locations b)
            (match tags b with
             | [] => tags a
             | _ :: _ => tags b
             end).

(** [pat_val.bindWhole(choose_whole, func)]: for every event of the outer
    pattern, the pattern [func] makes of its value is queried over the part
    of that event; the whole of each inner event is chosen from both. *)
Definition bindWhole {A B}
    (choose_whole : option TimeSpan -> option TimeSpan -> Res (option TimeSpan))
    (func : A -> Res (Pattern B)) (pat_val : Pattern A) : Pattern B :=
  let query := fun state =>
    let withWhole := fun (a : Hap A) (b : Hap B) =>
      w <- choose_whole (whole a) (whole b) ;;
      Ok (mkHap w (part b) (value b) (assignContext (context a) (context b))) in
    let match_ := fun a : Hap A =>
      inner <- func (value a) ;;
      haps <- query inner (setSpan state (part a)) ;;
      mapM (withWhole a) haps in
    outer <- query pat_val state ;;
    flatMapM match_ outer in
  newPattern query None.

(** [pat.outerBind(func)]: the wholes and the step count of the outer
    pattern. *)
Definition outerBind {A B} (func : A -> Res (Pattern B)) (pat : Pattern A)
  : Pattern B :=
  setSteps (_steps pat) (bindWhole (fun a _ => Ok a) func pat).

(** [pat.innerBind(func)]: the wholes of the inner patterns. *)
Definition innerBind {A B} (func : A -> Res (Pattern B)) (pat : Pattern A)
  : Pattern B :=
  bindWhole (fun _ b => Ok b) func pat.

(** [pat.innerJoin()]. *)
Definition innerJoin {A} (pat : Pattern (Pattern A)) : Pattern A :=
  innerBind (fun x => Ok x) pat.

(** [slowcatPrime(...pats)]: the pattern of index [Math.floor(begin) % n],
    queried over the span as it is; no pattern for a negative or undefined
    index. *)
Definition slowcatPrime {A} (pats : list (Pattern A)) : Pattern A :=
  let query := fun state =>
    let pat_n :=
      if (length pats =? 0)%nat then None
      else Some (Z.rem (Fraction.floorZ (begin (span state)))
                       (Z.of_nat (length pats))) in
    match (match pat_n with
           | Some n => if (n <? 0)%Z then None else nth_error pats (Z.to_nat n)
           | None => None
           end) with
    | Some pat => query pat state
    | None => Ok []
    end in
  splitQueries (newPattern query None).

(** [Array(n - 1).fill(pat)], for an integer [n]: a negative length is a
    [RangeError]. *)
Definition arrayFill {A} (n : Z) (x : A) : Res (list A) :=
  if (n <? 0)%Z then Throw (JsError "Invalid array length")
  else Ok (repeat x (Z.to_nat n)).

(** [lastOf]: the registered function. *)
Definition lastOf_func {A} (n : Z) (func : Pattern A -> Res (Pattern A))
    (pat : Pattern A) : Res (Pattern A) :=
  pats <- arrayFill (n - 1) pat ;;
  last <- func pat ;;
  Ok (slowcatPrime (pats ++ [last])).

(** [pat.lastOf(n, func)] with plain arguments. *)
Definition lastOf {A} (n : Z) (func : Pattern A -> Res (Pattern A))
    (pat : Pattern A) : Res (Pattern A) :=
  patternified false pat (lastOf_func n func pat).

(** [firstOf], also registered as [every]: the registered function. *)
Definition firstOf_func {A} (n : Z) (func : Pattern A -> Res (Pattern A))
    (pat : Pattern A) : Res (Pattern A) :=
  pats <- arrayFill (n - 1) pat ;;
  first <- func pat ;;
  Ok (slowcatPrime (first :: pats)).

(** [pat.firstOf(n, func)] and [pat.every(n, func)] with plain arguments. *)
Definition firstOf {A} (n : Z) (func : Pattern A -> Res (Pattern A))
    (pat : Pattern A) : Res (Pattern A) :=
  patternified false pat (firstOf_func n func pat).

(** [inside]: the registered function. *)
Definition inside_func {A} (factor : JsNum) (f : Pattern A -> Res (Pattern A))
    (pat : Pattern A) : Res (Pattern A) :=
  slowed <- _slow factor pat ;;
  r <- f slowed ;;
  Ok (_fast factor r).

(** [pat.early(offset)] with a plain offset. *)
Definition early {A} (offset : Qc) (pat : Pattern A) : Res (Pattern A) :=
  patternified true pat (Ok (early_func offset pat)).

(** [pat.late(offset)] with a plain offset. *)
Definition late {A} (offset : Qc) (pat : Pattern A) : Res (Pattern A) :=
  patternified true pat (Ok (late_func offset pat)).

(** The inner function [reflect] of [rev]: a span mirrored inside the cycle
    of the query, its ends swapped. *)
Definition rev_reflect (cycle next_cycle : Qc) (to_reflect : TimeSpan)
  : Res TimeSpan :=
  reflected <- withTime (fun time => Ok (cycle + (next_cycle - time))) to_reflect ;;
  Ok (mkTimeSpan (end_ reflected) (begin reflected)).

(** The [query] function of [rev]. *)
Definition rev_query {A} (pat : Pattern A) (state : State) : Res (list (Hap A)) :=
  let span := span state in
  let cycle := Fraction.sam (begin span) in
  let next_cycle := Fraction.nextSam (begin span) in
  let reflect := rev_reflect cycle next_cycle in
  s <- reflect span ;;
  haps <- query pat (setSpan state s) ;;
  mapM (HapOps.withSpan reflect) haps.

(** [rev]: the registered function, with [preserveSteps]. *)
Definition rev_func {A} (pat : Pattern A) : Pattern A :=
  splitQueries (newPattern (rev_query pat) None).

(** [pat.rev()]. *)
Definition rev_ {A} (pat : Pattern A) : Pattern A :=
  preserve true pat (rev_func pat).

(** The [query] function of [repeatCycles]. *)
Definition repeatCycles_query {A} (n : Qc) (pat : Pattern A) (state : State)
  : Res (list (Hap A)) :=
  let cycle := Fraction.sam (begin (span state)) in
  d <- Fraction.div cycle n ;;
  let source_cycle := Fraction.sam d in
  let delta := cycle - source_cycle in
  s <- withTime (fun spant => Ok (spant - delta)) (span state) ;;
  haps <- query pat (setSpan state s) ;;
  mapM (HapOps.withSpan (withTime (fun spant => Ok (spant + delta)))) haps.

(** [repeatCycles]: the registered function, with [preserveSteps]. *)
Definition repeatCycles_func {A} (n : Qc) (pat : Pattern A) : Pattern A :=
  splitQueries (newPattern (repeatCycles_query n pat) None).

(** [pat._repeatCycles(n)]. *)
Definition _repeatCycles {A} (n : Qc) (pat : Pattern A) : Pattern A :=
  preserve true pat (repeatCycles_func n pat).

(** [haps.filter(test)] when [test] may throw. *)
Fixpoint filterM {A} (test : A -> Res bool) (xs : list A) : Res (list A) :=
  match xs with
  | [] => Ok []
  | x :: xs' =>
      keep <- test x ;;
      rest <- filterM test xs' ;;
      Ok (if keep then x :: rest else rest)
  end.

(** [filter]: the registered function. *)
Definition filter_func {A} (test : Hap A -> Res bool) (pat : Pattern A) : Pattern A :=
  withHaps (fun haps _ => filterM test haps) pat.

(** [pat.filter(test)] with a plain function. *)
Definition filter_ {A} (test : Hap A -> Res bool) (pat : Pattern A) : Res (Pattern A) :=
  patternified false pat (Ok (filter_func test pat)).

(** [filterWhen]: the registered function.  Reading [h.whole.begin] of an
    event without whole is a [TypeError]. *)
Definition filterWhen_func {A} (test : Qc -> bool) (pat : Pattern A)
  : Res (Pattern A) :=
  filter_ (fun h => match whole h with
                    | Some w => Ok (test (begin w))
                    | None => Throw (JsError
                        "Cannot read properties of undefined (reading 'begin')")
                    end) pat.

(** [pat.filterWhen(test)] with a plain function. *)
Definition filterWhen {A} (test : Qc -> bool) (pat : Pattern A) : Res (Pattern A) :=
  patternified false pat (filterWhen_func test pat).

(** [within]: the registered function. *)
Definition within_func {A} (a b : Qc) (fn : Pattern A -> Res (Pattern A))
    (pat : Pattern A) : Res (Pattern A) :=
  inner <- filterWhen (fun t => Fraction.gte (Fraction.cyclePos t) a
                                && Fraction.lte (Fraction.cyclePos t) b) pat ;;
  changed <- fn inner ;;
  outer <- filterWhen (fun t => Fraction.lt (Fraction.cyclePos t) a
                                || Fraction.gt (Fraction.cyclePos t) b) pat ;;
  Ok (stack [changed; outer]).

(** [pat.within(a, b, fn)] with plain arguments. *)
Definition within {A} (a b : Qc) (fn : Pattern A -> Res (Pattern A))
    (pat : Pattern A) : Res (Pattern A) :=
  patternified false pat (within_func a b fn pat).

(* ---------------------------------------------------------------- *)
(** ** Further functions of signal.mjs *)

(** [_irand(i)]: [Math.trunc(x * i)], the product taken exactly. *)
Definition _irand (i : Qc) : Pattern Z :=
  fmap (fun x => truncZ (x * i)) rand.

(** [undegradeBy]: the registered function, with [preserveSteps]. *)
Definition undegradeBy_func {A} (x : Qc) (pat : Pattern A) : Pattern A :=
  _degradeByWith (fmap (fun r => 1 - r) rand) x pat.

(** [pat._undegradeBy(x)]. *)
Definition _undegradeBy {A} (x : Qc) (pat : Pattern A) : Pattern A :=
  preserve true pat (undegradeBy_func x pat).

(** [pat._degradeBy(x)]. *)
Definition _degradeBy {A} (x : Qc) (pat : Pattern A) : Pattern A :=
  preserve true pat (degradeBy_func x pat).

End Engine.

(* ================================================================== *)
(** * Vocabulary of the specification *)

(** Two patterns are equivalent when every query gets the same answer:
    the same events (whole, part, value and context) in the same order, or
    the same exception. *)
Definition equiv {A} (p q : Pattern A) : Prop :=
  forall state, query p state = query q state.

(** A pattern without events. *)
Definition silent {A} (p : Pattern A) : Prop :=
  forall state, query p state = Ok [].

(** [f] applied to both ends of a span, and to the spans of an event. *)
Definition mapSpan (f : Qc -> Qc) (s : TimeSpan) : TimeSpan :=
  mkTimeSpan (f (begin s)) (f (end_ s)).

Definition mapHapTime {A} (f : Qc -> Qc) (h : Hap A) : Hap A :=
  mkHap (option_map (mapSpan f) (whole h)) (mapSpan f (part h))
        (value h) (context h).

(** A span is well formed when it does not end before it begins, and lies
    inside another when its ends do. *)
Definition wf (s : TimeSpan) : Prop := begin s <= end_ s.

Definition inside (inner outer : TimeSpan) : Prop :=
  begin outer <= begin inner /\ end_ inner <= end_ outer.

(** A span that lies in one cycle: it does not end before it begins, nor
    after the next integer. *)
Definition oneCycle (s : TimeSpan) : Prop :=
  begin s <= end_ s /\ end_ s <= Fraction.nextSam (begin s).

(** Event containment for one event of a query over [s]. *)
Definition contained {A} (s : TimeSpan) (h : Hap A) : Prop :=
  wf (part h) /\ inside (part h) s /\
  forall w, whole h = Some w -> inside (part h) w.

(** [inner] lies inside [outer] and is not a zero-width point sitting at the
    end of a non-empty [outer] (such a point does not intersect it). *)
Definition fits (inner outer : TimeSpan) : Prop :=
  wf inner /\ inside inner outer
  /\ (begin inner = end_ inner -> begin inner = end_ outer ->
      begin outer = end_ outer).

(** Observation of spans and events as plain numerator/denominator pairs. *)
Definition showSpan (s : TimeSpan) : Q * Q := (this (begin s), this (end_ s)).

Definition showHap {A} (h : Hap A) : option (Q * Q) * (Q * Q) * A :=
  (option_map showSpan (whole h), showSpan (part h), value h).

Definition showRes {A} (r : Res (list (Hap A)))
  : list (option (Q * Q) * (Q * Q) * A) + exn :=
  match r with
  | Ok haps => inl (map showHap haps)
  | Throw e => inr e
  end.

Definition frac (n : Z) (d : positive) : Qc := Q2Qc (n # d).

(** Sample patterns and query states. *)
Definition abc : list (Pattern string) :=
  [pure "a"%string; pure "b"%string; pure "c"%string].

Definition fourthCycle : State := mkState (mkTimeSpan (frac 3 1) (frac 7 2)) [].

Definition firstCycle : State := mkState (mkTimeSpan 0 1) [].


(** The pieces of a split span follow each other from [b] to [e]. *)
Fixpoint chain (b e : Qc) (pieces : list TimeSpan) : Prop :=
  match pieces with
  | [] => False
  | [piece] => piece = mkTimeSpan b e
  | piece :: rest => begin piece = b /\ chain (end_ piece) e rest
  end.

(* ================================================================== *)
(** * Arithmetic on fractions *)

Lemma this_plus (x y : Qc) : (this (x + y) == this x + this y)%Q.
Proof. unfold Qcplus, Q2Qc; cbn [this]; apply Qred_correct. Qed.

Lemma this_mult (x y : Qc) : (this (x * y) == this x * this y)%Q.
Proof. unfold Qcmult, Q2Qc; cbn [this]; apply Qred_correct. Qed.

Lemma this_opp (x : Qc) : (this (- x) == - this x)%Q.
Proof. unfold Qcopp, Q2Qc; cbn [this]; apply Qred_correct. Qed.

Lemma this_minus (x y : Qc) : (this (x - y) == this x - this y)%Q.
Proof. unfold Qcminus. rewrite this_plus, this_opp. reflexivity. Qed.

Lemma this_Q2Qc (q : Q) : (this (Q2Qc q) == q)%Q.
Proof. unfold Q2Qc; cbn [this]; apply Qred_correct. Qed.

Lemma Qc_eq_this (x y : Qc) : x = y <-> (this x == this y)%Q.
Proof. split; [intros ->; reflexivity | apply Qc_is_canon]. Qed.

(** Goals and hypotheses on [Qc] are moved to [Q], where [lra] decides
    linear arithmetic. *)
Ltac qc2q :=
  unfold Qcle, Qclt in *;
  repeat match goal with
  | H : @eq Qc _ _ |- _ => apply Qc_eq_this in H
  | H : ~ @eq Qc _ _ |- _ => rewrite Qc_eq_this in H
  | |- @eq Qc _ _ => apply Qc_is_canon
  | |- ~ @eq Qc _ _ => rewrite Qc_eq_this
  end;
  repeat (rewrite ?this_plus, ?this_minus, ?this_mult, ?this_opp, ?this_Q2Qc in * ).

Ltac qc_lra := qc2q; lra.
Ltac qc_nra := qc2q; nra.

Lemma eq_spec (x y : Qc) : Fraction.eq x y = true <-> x = y.
Proof.
  unfold Fraction.eq. rewrite Qeq_bool_iff. symmetry. apply Qc_eq_this.
Qed.

Lemma eq_false (x y : Qc) : x <> y -> Fraction.eq x y = false.
Proof.
  intros H. destruct (Fraction.eq x y) eqn:E; [|reflexivity].
  apply eq_spec in E. contradiction.
Qed.

Lemma eq_refl_true (x : Qc) : Fraction.eq x x = true.
Proof. apply eq_spec. reflexivity. Qed.

Lemma lte_spec (x y : Qc) : Fraction.lte x y = true <-> x <= y.
Proof. unfold Fraction.lte, Qcle. apply Qle_bool_iff. Qed.

Lemma lt_spec (x y : Qc) : Fraction.lt x y = true <-> x < y.
Proof.
  unfold Fraction.lt, Qclt. rewrite negb_true_iff.
  split; intros H.
  - apply Qnot_le_lt. intros C. apply Qle_bool_iff in C. congruence.
  - destruct (Qle_bool y x) eqn:E; [|reflexivity].
    apply Qle_bool_iff in E. exfalso. apply (Qlt_not_le _ _ H E).
Qed.

Lemma lt_false (x y : Qc) : Fraction.lt x y = false <-> y <= x.
Proof.
  unfold Fraction.lt, Qcle. rewrite negb_false_iff. apply Qle_bool_iff.
Qed.

Lemma gt_spec (x y : Qc) : Fraction.gt x y = true <-> y < x.
Proof. apply lt_spec. Qed.

Lemma gt_false (x y : Qc) : Fraction.gt x y = false <-> x <= y.
Proof. apply lt_false. Qed.

Lemma gte_spec (x y : Qc) : Fraction.gte x y = true <-> y <= x.
Proof. apply lte_spec. Qed.

Lemma div_nonzero (x y : Qc) : y <> 0 -> Fraction.div x y = Ok (x / y).
Proof. intros H. unfold Fraction.div. rewrite (eq_false _ _ H). reflexivity. Qed.

Lemma div_zero (x : Qc) : Fraction.div x 0 = Throw (JsError "Division by Zero").
Proof. reflexivity. Qed.

(* ================================================================== *)
(** * Results and lists *)

Lemma bind_Ok {A} (m : Res A) : (x <- m ;; Ok x) = m.
Proof. destruct m; reflexivity. Qed.

Lemma bind_assoc {A B C} (m : Res A) (f : A -> Res B) (g : B -> Res C) :
  (y <- (x <- m ;; f x) ;; g y) = (x <- m ;; y <- f x ;; g y).
Proof. destruct m; reflexivity. Qed.

Lemma mapM_Ok {A B} (f : A -> B) (xs : list A) :
  mapM (fun x => Ok (f x)) xs = Ok (map f xs).
Proof.
  induction xs as [|x xs IH]; simpl; [reflexivity|]. rewrite IH. reflexivity.
Qed.

Lemma mapM_ext {A B} (f g : A -> Res B) (xs : list A) :
  (forall x, In x xs -> f x = g x) -> mapM f xs = mapM g xs.
Proof.
  induction xs as [|x xs IH]; intros H; simpl; [reflexivity|].
  rewrite (H x (or_introl eq_refl)), IH; [reflexivity|].
  intros y Hy. apply H. right. exact Hy.
Qed.

Lemma map_id_ext {A} (f : A -> A) (xs : list A) :
  (forall x, f x = x) -> map f xs = xs.
Proof.
  intros H. induction xs as [|x xs IH]; simpl; [reflexivity|].
  rewrite H, IH. reflexivity.
Qed.

(* ================================================================== *)
(** * Spans and events under a total time function *)

Lemma withTime_Ok (f : Qc -> Qc) (s : TimeSpan) :
  withTime (fun t => Ok (f t)) s = Ok (mapSpan f s).
Proof. reflexivity. Qed.

Lemma withSpan_Ok {A} (f : TimeSpan -> TimeSpan) (h : Hap A) :
  HapOps.withSpan (fun s => Ok (f s)) h
  = Ok (mkHap (option_map f (whole h)) (f (part h)) (value h) (context h)).
Proof. unfold HapOps.withSpan. destruct (whole h); reflexivity. Qed.

Lemma withTime_div (k : Qc) (s : TimeSpan) :
  k <> 0 ->
  withTime (fun t => Fraction.div t k) s = Ok (mapSpan (fun t => t / k) s).
Proof.
  intros H. unfold withTime. rewrite !div_nonzero by exact H. reflexivity.
Qed.

Lemma mapSpan_id (f : Qc -> Qc) (s : TimeSpan) :
  (forall t, f t = t) -> mapSpan f s = s.
Proof. intros H. destruct s. unfold mapSpan. simpl. rewrite !H. reflexivity. Qed.

Lemma mapSpan_mapSpan (f g : Qc -> Qc) (s : TimeSpan) :
  mapSpan f (mapSpan g s) = mapSpan (fun t => f (g t)) s.
Proof. reflexivity. Qed.

Lemma mapHapTime_id {A} (f : Qc -> Qc) (h : Hap A) :
  (forall t, f t = t) -> mapHapTime f h = h.
Proof.
  intros H. destruct h as [w p v c]. unfold mapHapTime. simpl.
  rewrite (mapSpan_id f p H). destruct w as [w|]; simpl;
    [rewrite (mapSpan_id f w H)|]; reflexivity.
Qed.

Lemma mapHapTime_mapHapTime {A} (f g : Qc -> Qc) (h : Hap A) :
  mapHapTime f (mapHapTime g h) = mapHapTime (fun t => f (g t)) h.
Proof. destruct h as [[w|] p v c]; reflexivity. Qed.

Lemma query_withHapTime_Ok {A} (f : Qc -> Qc) (p : Pattern A) state :
  query (withHapTime (fun t => Ok (f t)) p) state
  = haps <- query p state ;; Ok (map (mapHapTime f) haps).
Proof.
  simpl. destruct (query p state) as [haps|e]; simpl; [|reflexivity].
  rewrite <- mapM_Ok. apply mapM_ext. intros h _.
  unfold HapOps.withSpan, mapHapTime. destruct (whole h); reflexivity.
Qed.

Lemma query_withHapTime_div {A} (k : Qc) (p : Pattern A) state :
  k <> 0 ->
  query (withHapTime (fun t => Fraction.div t k) p) state
  = haps <- query p state ;; Ok (map (mapHapTime (fun t => t / k)) haps).
Proof.
  intros Hk. simpl. destruct (query p state) as [haps|e]; simpl; [|reflexivity].
  rewrite <- mapM_Ok. apply mapM_ext. intros h _.
  unfold HapOps.withSpan, mapHapTime.
  destruct (whole h); simpl; rewrite ?withTime_div by exact Hk; reflexivity.
Qed.

(** The context rewrite of the patternified methods changes nothing. *)
Lemma query_withContext_nil {A} (p : Pattern A) state :
  query (withContext (fun context =>
                        mkContext (locations context ++ []) (tags context)) p)
        state
  = query p state.
Proof.
  assert (E : forall q : Pattern A,
    query (withHap (fun hap =>
             Ok (setContext (mkContext (locations (context hap) ++ [])
                               (tags (context hap))) hap)) q) state
    = query q state).
  { intros q. simpl. destruct (query q state) as [haps|e]; simpl; [|reflexivity].
    rewrite mapM_Ok. f_equal. apply map_id_ext.
    intros [w pt v [l t]]. unfold setContext. simpl. rewrite app_nil_r.
    reflexivity. }
  unfold withContext. destruct (__pure p); apply E.
Qed.

Lemma query_preserve {A} b (pat result : Pattern A) state :
  query (preserve b pat result) state = query result state.
Proof. destruct b; reflexivity. Qed.

Lemma query_setSteps {A} s (p : Pattern A) state :
  query (setSteps s p) state = query p state.
Proof. reflexivity. Qed.
(* ================================================================== *)
(** * [fast] and [slow] *)

Lemma isNumberZero_false (k : JsNum) : toFraction k <> 0 -> isNumberZero k = false.
Proof. destruct k as [q|q]; simpl; intros H; [apply eq_false; exact H|reflexivity]. Qed.

Lemma query_withQueryTime_Ok {A} (f : Qc -> Qc) (p : Pattern A) state :
  query (withQueryTime (fun t => Ok (f t)) p) state
  = query p (setSpan state (mapSpan f (span state))).
Proof. reflexivity. Qed.

Lemma query_fast_func {A} (k : JsNum) (p : Pattern A) state :
  toFraction k <> 0 ->
  query (fast_func k p) state
  = haps <- query p (setSpan state (mapSpan (fun t => t * toFraction k) (span state))) ;;
    Ok (map (mapHapTime (fun t => t / toFraction k)) haps).
Proof.
  intros Hk. unfold fast_func. rewrite (isNumberZero_false k Hk).
  rewrite query_setSteps, query_withHapTime_div by exact Hk.
  rewrite query_withQueryTime_Ok. reflexivity.
Qed.

Lemma query_fast_func_zero {A} (p : Pattern A) state :
  query (fast_func (Num 0) p) state = Ok [].
Proof. reflexivity. Qed.

Lemma inverse_nonzero (k : Qc) : k <> 0 -> 1 / k <> 0.
Proof.
  intros Hk E. apply Hk.
  assert (H : k * (1 / k) = 1) by (field; exact Hk).
  rewrite E in H. rewrite Qcmult_0_r in H. discriminate H.
Qed.

Lemma setSpan_setSpan state s1 s2 : setSpan (setSpan state s1) s2 = setSpan state s2.
Proof. reflexivity. Qed.

Lemma setSpan_span state : setSpan state (span state) = state.
Proof. destruct state; reflexivity. Qed.

(** C8. For a non-zero factor [k], [p.fast(k).slow(k)] answers every query
    exactly as [p] does (same events with the same wholes, parts, values and
    contexts, or the same exception) and keeps the step count of [p];
    for the number 0 the functions registered as [fast] and [slow] return
    [silence] itself, and [p.fast(0)] and [p.slow(0)] answer every query like
    [silence], with no event ([fast], registered with [preserveSteps], gives
    the result the step count of [p]; [slow] leaves it the one step of
    [silence]). *)
Theorem fast_slow_inverse {A} (p : Pattern A) :
  (forall k : JsNum, toFraction k <> 0 ->
     exists r r', fast k p = Ok r /\ slow k r = Ok r'
                  /\ equiv r' p /\ _steps r' = _steps p)
  /\ (fast_func (Num 0) p = silence
      /\ exists r, fast (Num 0) p = Ok r /\ equiv r silence
                   /\ _steps r = _steps p)
  /\ (slow_func (Num 0) p = Ok silence
      /\ exists r, slow (Num 0) p = Ok r /\ equiv r silence
                   /\ _steps r = _steps (@silence A)).
Proof.
  split; [|split; (split; [reflexivity|])].
  - intros k Hk.
    pose proof (inverse_nonzero _ Hk) as Hk'.
    unfold fast, slow, patternified, slow_func. simpl bind.
    eexists. eexists. split; [reflexivity|].
    rewrite (isNumberZero_false k Hk), (div_nonzero 1 _ Hk). simpl bind.
    split; [reflexivity|]. split.
    + intros state.
      rewrite query_withContext_nil.
      unfold _fast. rewrite query_preserve.
      rewrite (query_fast_func (Frac (1 / toFraction k))) by exact Hk'.
      rewrite query_setSteps, query_withContext_nil.
      rewrite (query_fast_func k) by exact Hk.
      rewrite setSpan_setSpan. cbn [toFraction span setSpan].
      rewrite mapSpan_mapSpan.
      rewrite (mapSpan_id (fun t => t * (1 / toFraction k) * toFraction k))
        by (intros t; field; exact Hk).
      rewrite setSpan_span.
      destruct (query p state) as [haps|e]; simpl; [|reflexivity].
      f_equal. rewrite map_map. apply map_id_ext. intros h.
      rewrite mapHapTime_mapHapTime. apply mapHapTime_id.
      intros t. field. split; [exact Hk|]. discriminate.
    + unfold preserve, withContext, _fast, preserve, fast_func.
      rewrite (isNumberZero_false k Hk). simpl.
      destruct (__pure p); reflexivity.
  - eexists. split; [reflexivity|]. split; [|reflexivity]. intros state.
    rewrite query_preserve, query_withContext_nil. reflexivity.
  - eexists. split; [reflexivity|]. split; [|reflexivity]. intros state.
    unfold preserve. rewrite query_withContext_nil. reflexivity.
Qed.

Lemma two_nonzero : toFraction (Num (frac 2 1)) <> 0.
Proof. intros H. apply Qc_eq_this in H. vm_compute in H. discriminate H. Qed.

Lemma fast_slow_inverse_witness :
  toFraction (Num (frac 2 1)) <> 0
  /\ exists r r', fast (Num (frac 2 1)) (pure "x"%string) = Ok r
                  /\ slow (Num (frac 2 1)) r = Ok r'
                  /\ equiv r' (pure "x"%string)
                  /\ _steps r' = _steps (pure "x"%string).
Proof.
  split; [exact two_nonzero|].
  exact (proj1 (fast_slow_inverse (pure "x"%string)) (Num (frac 2 1)) two_nonzero).
Defined.

(* ================================================================== *)
(** * Cycles *)

Lemma floorZ_ofZ (z : Z) : Fraction.floorZ (Fraction.ofZ z) = z.
Proof.
  unfold Fraction.floorZ, Fraction.ofZ.
  rewrite (Qfloor_comp _ _ (this_Q2Qc (inject_Z z))). apply Qfloor_Z.
Qed.

Lemma this_ofZ (z : Z) : (this (Fraction.ofZ z) == inject_Z z)%Q.
Proof. apply this_Q2Qc. Qed.

Lemma sam_le (x : Qc) : Fraction.sam x <= x.
Proof.
  unfold Fraction.sam, Fraction.floor, Qcle. rewrite this_ofZ. apply Qfloor_le.
Qed.

Lemma lt_nextSam (x : Qc) : x < Fraction.nextSam x.
Proof.
  unfold Fraction.nextSam, Fraction.sam, Fraction.floor, Qclt.
  rewrite this_plus, this_ofZ.
  pose proof (Qlt_floor (this x)) as H. rewrite inject_Z_plus in H. exact H.
Qed.

(** The floor of [y] is the integer [z] with [z <= y < z + 1]. *)
Lemma Qfloor_unique (y : Q) (z : Z) :
  (inject_Z z <= y)%Q -> (y < inject_Z (z + 1))%Q -> Qfloor y = z.
Proof.
  intros Hlo Hhi.
  assert (H1 : (z <= Qfloor y)%Z).
  { rewrite <- (Qfloor_Z z). apply Qfloor_resp_le. exact Hlo. }
  assert (H2 : (Qfloor y < z + 1)%Z).
  { rewrite Zlt_Qlt. eapply Qle_lt_trans; [apply Qfloor_le|exact Hhi]. }
  lia.
Qed.

Lemma floorZ_unique (x : Qc) (z : Z) :
  Fraction.ofZ z <= x -> x < Fraction.ofZ z + 1 -> Fraction.floorZ x = z.
Proof.
  unfold Qcle, Qclt. rewrite this_plus, this_ofZ. intros Hlo Hhi.
  apply Qfloor_unique; [exact Hlo|]. rewrite inject_Z_plus. exact Hhi.
Qed.

Lemma ofZ_plus (a b : Z) : Fraction.ofZ (a + b) = Fraction.ofZ a + Fraction.ofZ b.
Proof.
  apply Qc_is_canon. rewrite this_plus, !this_ofZ, inject_Z_plus. reflexivity.
Qed.

Lemma ofZ_le (a b : Z) : (a <= b)%Z -> Fraction.ofZ a <= Fraction.ofZ b.
Proof. intros H. unfold Qcle. rewrite !this_ofZ. rewrite <- Zle_Qle. exact H. Qed.

Lemma ofZ_lt (a b : Z) : (a < b)%Z -> Fraction.ofZ a < Fraction.ofZ b.
Proof. intros H. unfold Qclt. rewrite !this_ofZ. rewrite <- Zlt_Qlt. exact H. Qed.

Lemma ofZ_inj (a b : Z) : Fraction.ofZ a = Fraction.ofZ b -> a = b.
Proof. intros H. rewrite <- (floorZ_ofZ a), <- (floorZ_ofZ b), H. reflexivity. Qed.

Lemma ofZ_1 : Fraction.ofZ 1 = 1.
Proof. apply Qc_is_canon. reflexivity. Qed.

Lemma ofZ_0 : Fraction.ofZ 0 = 0.
Proof. apply Qc_is_canon. reflexivity. Qed.

Lemma floorZ_mono (x y : Qc) : x <= y -> (Fraction.floorZ x <= Fraction.floorZ y)%Z.
Proof. apply Qfloor_resp_le. Qed.


(** [floor (x / n) = floor x / n] for a positive integer [n]. *)
Lemma floorZ_div (x : Qc) (n : Z) :
  (0 < n)%Z ->
  Fraction.floorZ (x / Fraction.ofZ n) = (Fraction.floorZ x / n)%Z.
Proof.
  intros Hn.
  set (c := Fraction.floorZ x). set (z := (c / n)%Z).
  assert (Hn0 : Fraction.ofZ n <> 0).
  { intros E. rewrite <- ofZ_0 in E. apply ofZ_inj in E. lia. }
  assert (Hnpos : 0 < Fraction.ofZ n).
  { rewrite <- ofZ_0. apply ofZ_lt. exact Hn. }
  assert (Hlo : (z * n <= c)%Z).
  { unfold z. rewrite Z.mul_comm. apply Z.mul_div_le. exact Hn. }
  assert (Hhi : (c + 1 <= (z + 1) * n)%Z).
  { unfold z. pose proof (Z.mul_succ_div_gt c n Hn). lia. }
  pose proof (sam_le x) as Hx1. pose proof (lt_nextSam x) as Hx2.
  unfold Fraction.nextSam, Fraction.sam, Fraction.floor in Hx1, Hx2.
  fold c in Hx1, Hx2.
  apply ofZ_le in Hlo, Hhi.
  rewrite ofZ_plus, ofZ_1 in Hhi.
  assert (Ez : Fraction.ofZ (z * n) = Fraction.ofZ z * Fraction.ofZ n).
  { apply Qc_is_canon. rewrite this_mult, !this_ofZ, inject_Z_mult. reflexivity. }
  assert (Ez1 : Fraction.ofZ ((z + 1) * n) = (Fraction.ofZ z + 1) * Fraction.ofZ n).
  { apply Qc_is_canon. rewrite this_mult, this_plus, !this_ofZ.
    rewrite inject_Z_mult, inject_Z_plus. reflexivity. }
  rewrite Ez in Hlo. rewrite Ez1 in Hhi.
  assert (Ex : x = x / Fraction.ofZ n * Fraction.ofZ n) by (field; exact Hn0).
  set (y := x / Fraction.ofZ n) in *.
  apply floorZ_unique.
  - apply (Qcmult_lt_0_le_reg_r _ _ (Fraction.ofZ n) Hnpos).
    rewrite <- Ex. eapply Qcle_trans; [exact Hlo|exact Hx1].
  - apply Qcnot_le_lt. intros C.
    apply (Qcmult_le_compat_r _ _ (Fraction.ofZ n)) in C;
      [|apply Qclt_le_weak; exact Hnpos].
    rewrite <- Ex in C.
    apply (Qclt_not_le _ _ Hx2). eapply Qcle_trans; [exact Hhi|exact C].
Qed.


(** A query inside one cycle is not split. *)
Lemma spanCycles_single (s : TimeSpan) :
  begin s <= end_ s -> end_ s <= Fraction.nextSam (begin s) ->
  spanCycles s = [s].
Proof.
  intros Hwf Hcyc. unfold spanCycles.
  destruct (Fraction.eq (begin s) (end_ s)) eqn:E; [reflexivity|].
  assert (Hlt : begin s < end_ s).
  { apply Qcnot_le_lt. intros C. assert (begin s = end_ s) by qc_lra.
    apply eq_spec in H. congruence. }
  unfold spanCycles_fuel. cbn [spanCycles_loop].
  rewrite (proj2 (gt_spec _ _) Hlt).
  destruct (Fraction.eq (Fraction.sam (begin s)) (Fraction.sam (end_ s))) eqn:Es.
  - destruct s; reflexivity.
  - assert (He : end_ s = Fraction.nextSam (begin s)).
    { apply Qcle_antisym; [exact Hcyc|].
      assert (Hf : (Fraction.floorZ (begin s) <= Fraction.floorZ (end_ s))%Z)
        by (apply floorZ_mono; exact Hwf).
      assert (Hne : Fraction.floorZ (begin s) <> Fraction.floorZ (end_ s)).
      { intros C. unfold Fraction.sam, Fraction.floor in Es. rewrite C in Es.
        rewrite eq_refl_true in Es. discriminate Es. }
      assert (Hf' : (Fraction.floorZ (begin s) + 1 <= Fraction.floorZ (end_ s))%Z)
        by lia.
      apply ofZ_le in Hf'. rewrite ofZ_plus, ofZ_1 in Hf'.
      unfold Fraction.nextSam, Fraction.sam, Fraction.floor.
      eapply Qcle_trans; [exact Hf'|]. apply sam_le. }
    rewrite <- He.
    assert (Hno : Fraction.gt (end_ s) (end_ s) = false)
      by (apply gt_false; apply Qcle_refl).
    destruct (Z.to_nat _); cbn [spanCycles_loop]; rewrite ?Hno;
      destruct s; reflexivity.
Qed.

(* ================================================================== *)
(** * [slowcat] and [fastcat] *)

Lemma flatMapM_single {A B} (f : A -> Res (list B)) (x : A) :
  flatMapM f [x] = f x.
Proof.
  unfold flatMapM. simpl. destruct (f x) as [ys|e]; simpl; [|reflexivity].
  rewrite app_nil_r. reflexivity.
Qed.




(** Comparisons of concrete fractions are decided by computation. *)
Ltac qc_decide :=
  unfold wf, inside, Qcle, Qclt; vm_compute;
  repeat split; first [discriminate | reflexivity].


(** Scenario: the fourth cycle of three concatenated patterns is the second
    cycle of the first one. *)
Example slowcat_fourth_cycle :
  showRes (query (slowcat true [pure "a"%string; pure "b"%string; pure "c"%string])
                 (mkState (mkTimeSpan 0 (frac 7 2)) []))
  = inl [(Some (0, 1), (0, 1), "a"%string);
         (Some (1, 2), (1, 2), "b"%string);
         (Some (2, 3), (2, 3), "c"%string);
         (Some (3, 4), (3, 7 # 2), "a"%string)]%Q.
Proof. vm_compute. reflexivity. Qed.

Lemma ofZ_nat_nonzero (n : nat) : (1 <= n)%nat -> Fraction.ofZ (Z.of_nat n) <> 0.
Proof. intros H E. rewrite <- ofZ_0 in E. apply ofZ_inj in E. lia. Qed.

(** [fast] by one changes no answer. *)
Lemma query_fast_func_one {A} (k : JsNum) (p : Pattern A) state :
  toFraction k = 1 -> query (fast_func k p) state = query p state.
Proof.
  intros E.
  assert (Hk : toFraction k <> 0) by (rewrite E; discriminate).
  rewrite (query_fast_func k p state Hk), E.
  rewrite (mapSpan_id (fun t => t * 1)) by (intros t; ring).
  rewrite setSpan_span.
  destruct (query p state) as [haps|e]; simpl; [|reflexivity].
  f_equal. apply map_id_ext. intros h. apply mapHapTime_id.
  intros t. field. discriminate.
Qed.

(** C6, as the code has it. For a non-empty list of [n] patterns, [fastcat]
    answers every query as [slowcat(p1..pn).fast(n)] does; its step count is
    [n] when [n >= 2], and the step count of the single argument (which
    [fastcat] returns unchanged) when [n = 1]. *)
Theorem fastcat_slowcat_fast flag {A} (pats : list (Pattern A)) :
  pats <> [] ->
  let n := Fraction.ofZ (Z.of_nat (length pats)) in
  (exists r, fast (Num n) (slowcat flag pats) = Ok r
             /\ equiv (fastcat flag pats) r)
  /\ ((2 <= length pats)%nat -> _steps (fastcat flag pats) = Some n)
  /\ (forall p, pats = [p] -> fastcat flag pats = p).
Proof.
  intros Hne n. split; [|split].
  - eexists. split; [reflexivity|]. intros state.
    rewrite query_preserve, query_withContext_nil.
    unfold fastcat. fold n.
    destruct (Nat.ltb_spec 1 (length pats)) as [Hlen|Hlen].
    + rewrite query_setSteps. unfold _fast. apply query_preserve.
    + symmetry. apply query_fast_func_one. unfold n. cbn [toFraction].
      destruct pats as [|p [|q rest]]; simpl in Hlen; try lia;
        [contradiction|]. apply ofZ_1.
  - intros Hlen. unfold fastcat.
    destruct (Nat.ltb_spec 1 (length pats)) as [_|C]; [reflexivity|lia].
  - intros p ->. reflexivity.
Qed.

Lemma fastcat_slowcat_fast_witness :
  abc <> []
  /\ (exists r, fast (Num (Fraction.ofZ 3)) (slowcat true abc) = Ok r
                /\ equiv (fastcat true abc) r)
  /\ ((2 <= length abc)%nat -> _steps (fastcat true abc) = Some (Fraction.ofZ 3))
  /\ (forall p, abc = [p] -> fastcat true abc = p).
Proof.
  assert (H : abc <> []) by discriminate.
  split; [exact H|]. exact (fastcat_slowcat_fast true abc H).
Defined.

(** C6 as stated fails for one argument: a sequence of the single
    sub-sequence [a b] keeps the two steps of its argument. *)
Lemma fastcat_single_counterexample :
  [fastcat true [pure "a"%string; pure "b"%string]] <> []
  /\ _steps (fastcat true [fastcat true [pure "a"%string; pure "b"%string]])
     = Some (Fraction.ofZ 2)
  /\ _steps (fastcat true [fastcat true [pure "a"%string; pure "b"%string]])
     <> Some (Fraction.ofZ 1).
Proof.
  split; [discriminate|]. split; [reflexivity|].
  intros E.
  apply (f_equal (fun o => match o with
                           | Some x => Fraction.floorZ x
                           | None => 0%Z
                           end)) in E.
  vm_compute in E. discriminate E.
Qed.

(** Scenario: [fastcat("a","b","c")] over the first cycle. *)
Example fastcat_first_cycle :
  showRes (query (fastcat true [pure "a"%string; pure "b"%string; pure "c"%string])
                 (mkState (mkTimeSpan 0 1) []))
  = inl [(Some (0, 1 # 3), (0, 1 # 3), "a"%string);
         (Some (1 # 3, 2 # 3), (1 # 3, 2 # 3), "b"%string);
         (Some (2 # 3, 1), (2 # 3, 1), "c"%string)]%Q.
Proof. vm_compute. reflexivity. Qed.

(* ================================================================== *)
(** * Intersections *)

Lemma eq_false_iff (x y : Qc) : Fraction.eq x y = false <-> x <> y.
Proof.
  split; [|apply eq_false]. intros E H. apply eq_spec in H. congruence.
Qed.

(** Every comparison in the goal is replaced by the fact it decides. *)
Ltac frac_cases :=
  repeat match goal with
  | |- context [Fraction.gt ?x ?y] =>
      let E := fresh "E" in
      destruct (Fraction.gt x y) eqn:E;
      [apply gt_spec in E | apply gt_false in E]
  | |- context [Fraction.lt ?x ?y] =>
      let E := fresh "E" in
      destruct (Fraction.lt x y) eqn:E;
      [apply lt_spec in E | apply lt_false in E]
  | |- context [Fraction.eq ?x ?y] =>
      let E := fresh "E" in
      destruct (Fraction.eq x y) eqn:E;
      [apply eq_spec in E | apply eq_false_iff in E]
  end.

Lemma span_eq (a b : TimeSpan) : begin a = begin b -> end_ a = end_ b -> a = b.
Proof. destruct a, b; simpl; intros -> ->; reflexivity. Qed.


Lemma max_left (x y : Qc) : y <= x -> Fraction.max x y = x.
Proof. intros H. unfold Fraction.max. frac_cases; [reflexivity|qc_lra]. Qed.

Lemma min_left (x y : Qc) : x <= y -> Fraction.min x y = x.
Proof. intros H. unfold Fraction.min. frac_cases; [reflexivity|qc_lra]. Qed.



(* ================================================================== *)
(** * Applicative identity *)



Lemma query_pure_single {A} (v : A) state :
  begin (span state) <= end_ (span state) ->
  end_ (span state) <= Fraction.nextSam (begin (span state)) ->
  query (pure v) state
  = Ok [newHap (Some (wholeCycle (begin (span state)))) (span state) v].
Proof.
  intros Hwf Hcyc. cbn [query pure].
  rewrite (spanCycles_single _ Hwf Hcyc). reflexivity.
Qed.




(* ================================================================== *)
(** * Splitting a span into cycles *)

(** A begin and an end in different cycles: the next cycle starts no later
    than the end. *)
Lemma nextSam_le (b e : Qc) :
  b < e -> Fraction.sam b <> Fraction.sam e -> Fraction.nextSam b <= e.
Proof.
  intros Hlt Hne.
  assert (Hf : (Fraction.floorZ b <= Fraction.floorZ e)%Z)
    by (apply floorZ_mono, Qclt_le_weak; exact Hlt).
  assert (Hf' : (Fraction.floorZ b + 1 <= Fraction.floorZ e)%Z).
  { destruct (Z.eq_dec (Fraction.floorZ b) (Fraction.floorZ e)) as [C|C]; [|lia].
    exfalso. apply Hne. unfold Fraction.sam, Fraction.floor. rewrite C. reflexivity. }
  apply ofZ_le in Hf'. rewrite ofZ_plus, ofZ_1 in Hf'.
  unfold Fraction.nextSam, Fraction.sam, Fraction.floor.
  eapply Qcle_trans; [exact Hf'|apply sam_le].
Qed.

Lemma floorZ_nextSam (b : Qc) :
  Fraction.floorZ (Fraction.nextSam b) = (Fraction.floorZ b + 1)%Z.
Proof.
  unfold Fraction.nextSam, Fraction.sam, Fraction.floor.
  rewrite <- ofZ_1, <- ofZ_plus. apply floorZ_ofZ.
Qed.

(** Every piece lies between the begin and the end and inside one cycle,
    whatever the fuel. *)
Lemma spanCycles_loop_inside (fuel : nat) : forall b e piece,
  In piece (spanCycles_loop fuel b e) ->
  wf piece /\ inside piece (mkTimeSpan b e)
  /\ end_ piece <= Fraction.nextSam (begin piece).
Proof.
  induction fuel as [|fuel IH]; intros b e piece Hin; [destruct Hin|].
  cbn [spanCycles_loop] in Hin. revert Hin. frac_cases; intros Hin.
  - destruct Hin as [<-|[]]. unfold wf, inside; cbn [begin end_].
    repeat split; try qc_lra.
    pose proof (lt_nextSam e) as He. unfold Fraction.nextSam in *.
    rewrite E0. apply Qclt_le_weak. exact He.
  - pose proof (nextSam_le b e E E0) as Hn. pose proof (lt_nextSam b) as Hb.
    destruct Hin as [<-|Hin].
    + unfold wf, inside; cbn [begin end_]. repeat split; qc_lra.
    + destruct (IH _ _ _ Hin) as [Hw [[H1 H2] H3]]. cbn [begin end_] in H1, H2.
      split; [exact Hw|]. split; [|exact H3].
      unfold inside; cbn [begin end_]. split; qc_lra.
  - destruct Hin.
Qed.

Lemma spanCycles_inside (s piece : TimeSpan) :
  wf s -> In piece (spanCycles s) ->
  wf piece /\ inside piece s /\ end_ piece <= Fraction.nextSam (begin piece).
Proof.
  intros Hwf Hin. unfold spanCycles in Hin.
  destruct (Fraction.eq (begin s) (end_ s)) eqn:E.
  - destruct Hin as [<-|[]]. split; [exact Hwf|].
    split; [unfold inside; split; apply Qcle_refl|].
    apply eq_spec in E. rewrite <- E. apply Qclt_le_weak, lt_nextSam.
  - destruct s as [b e]. exact (spanCycles_loop_inside _ _ _ _ Hin).
Qed.

(** With fuel beyond the number of cycles touched, the loop ends by itself:
    the pieces follow each other from the begin to the end. *)
Lemma spanCycles_loop_chain (fuel : nat) : forall b e,
  b < e -> (Fraction.floorZ e - Fraction.floorZ b < Z.of_nat fuel)%Z ->
  chain b e (spanCycles_loop fuel b e).
Proof.
  induction fuel as [|fuel IH]; intros b e Hlt Hfuel.
  - exfalso.
    assert ((Fraction.floorZ b <= Fraction.floorZ e)%Z)
      by (apply floorZ_mono, Qclt_le_weak; exact Hlt). lia.
  - cbn [spanCycles_loop]. rewrite (proj2 (gt_spec _ _) Hlt).
    destruct (Fraction.eq (Fraction.sam b) (Fraction.sam e)) eqn:Es.
    + reflexivity.
    + apply eq_false_iff in Es.
      pose proof (nextSam_le b e Hlt Es) as Hn.
      destruct (Qc_eq_dec (Fraction.nextSam b) e) as [He|He].
      * rewrite He.
        assert (Hno : Fraction.gt e e = false) by (apply gt_false, Qcle_refl).
        destruct fuel; cbn [spanCycles_loop]; rewrite ?Hno; reflexivity.
      * assert (Hlt' : Fraction.nextSam b < e).
        { apply Qcnot_le_lt. intros C. apply He. apply Qcle_antisym; assumption. }
        assert (Hfuel' : (Fraction.floorZ e - Fraction.floorZ (Fraction.nextSam b)
                          < Z.of_nat fuel)%Z)
          by (rewrite floorZ_nextSam; lia).
        specialize (IH _ _ Hlt' Hfuel').
        destruct (spanCycles_loop fuel (Fraction.nextSam b) e) eqn:El;
          [destruct IH|].
        cbn [chain begin end_]. split; [reflexivity|exact IH].
Qed.

(** [spanCycles] rejoined is the span itself. *)
Lemma spanCycles_chain (s : TimeSpan) :
  wf s -> chain (begin s) (end_ s) (spanCycles s).
Proof.
  intros Hwf. unfold spanCycles.
  destruct (Fraction.eq (begin s) (end_ s)) eqn:E.
  - destruct s; reflexivity.
  - apply eq_false_iff in E. apply spanCycles_loop_chain.
    + apply Qcnot_le_lt. intros C. apply E. apply Qcle_antisym; assumption.
    + unfold spanCycles_fuel. 
      assert ((Fraction.floorZ (begin s) <= Fraction.floorZ (end_ s))%Z)
        by (apply floorZ_mono; exact Hwf). lia.
Qed.

(* ================================================================== *)
(** * Event containment *)

Lemma mapM_In {A B} (f : A -> Res B) (xs : list A) (ys : list B) (y : B) :
  mapM f xs = Ok ys -> In y ys -> exists x, In x xs /\ f x = Ok y.
Proof.
  revert ys. induction xs as [|x xs IH]; intros ys E Hin; simpl in E.
  - injection E as <-. destruct Hin.
  - destruct (f x) as [y0|e] eqn:Ef; simpl in E; [|discriminate E].
    destruct (mapM f xs) as [ys0|e] eqn:Em; simpl in E; [|discriminate E].
    injection E as <-. destruct Hin as [<-|Hin].
    + exists x. split; [left; reflexivity|exact Ef].
    + destruct (IH ys0 eq_refl Hin) as [x0 [H1 H2]].
      exists x0. split; [right; exact H1|exact H2].
Qed.

Lemma flatMapM_In {A B} (f : A -> Res (list B)) (xs : list A) (ys : list B) (y : B) :
  flatMapM f xs = Ok ys -> In y ys ->
  exists x ys', In x xs /\ f x = Ok ys' /\ In y ys'.
Proof.
  unfold flatMapM. intros E Hin.
  destruct (mapM f xs) as [yss|e] eqn:Em; simpl in E; [|discriminate E].
  injection E as <-. apply in_concat in Hin. destruct Hin as [ys' [H1 H2]].
  destruct (mapM_In f xs yss ys' Em H1) as [x [Hx Hf]].
  exists x, ys'. repeat split; assumption.
Qed.






















Lemma query_stack flag {A} (pats : list (Pattern A)) state :
  query (stack flag pats) state = flatMapM (fun pat => query pat state) pats.
Proof. unfold stack. destruct flag; reflexivity. Qed.





















Lemma wf_wholeOrPart {A} (s : TimeSpan) (h : Hap A) :
  contained s h -> wf (wholeOrPart h).
Proof.
  intros [Hw [_ Hwh]]. unfold wholeOrPart. destruct (whole h) as [w|]; [|exact Hw].
  destruct (Hwh w eq_refl) as [H1 H2]. unfold wf in *. qc_lra.
Qed.








(* ================================================================== *)
(** * [compress] *)

(** An interval that is reversed or leaves the cycle gives [silence]. *)
Lemma compress_out_of_range {A} (b e : Qc) (pat : Pattern A) :
  e < b \/ 1 < b \/ 1 < e \/ b < 0 \/ e < 0 ->
  compress_func b e pat = Ok silence
  /\ exists r, compress b e pat = Ok r /\ equiv r silence /\ _steps r = Some 1.
Proof.
  intros H.
  assert (E : compress_func b e pat = Ok silence).
  { unfold compress_func.
    destruct H as [H|[H|[H|[H|H]]]].
    - rewrite (proj2 (gt_spec b e) H). reflexivity.
    - rewrite (proj2 (gt_spec b 1) H), orb_true_r. reflexivity.
    - rewrite (proj2 (gt_spec e 1) H), !orb_true_r. reflexivity.
    - rewrite (proj2 (lt_spec b 0) H), !orb_true_r. reflexivity.
    - rewrite (proj2 (lt_spec e 0) H), !orb_true_r. reflexivity. }
  split; [exact E|]. unfold compress. rewrite E.
  eexists. split; [reflexivity|]. split; [|reflexivity].
  intros state. unfold preserve. apply query_withContext_nil.
Qed.

(** C2 on the code. A degenerate interval [b = e] inside the cycle passes
    the guard of [compress], which only rejects [b > e], and the factor
    [1 / (e - b)] is then a division by zero: the call raises instead of
    returning [silence].  Outside the cycle the guard answers first. *)
Theorem compress_degenerate_throws {A} (b : Qc) (pat : Pattern A) :
  compress b b pat
  = if Fraction.gt b 1 || Fraction.lt b 0
    then patternified false pat (Ok silence)
    else Throw (JsError "Division by Zero").
Proof.
  unfold compress, compress_func.
  assert (E : Fraction.gt b b = false) by (apply gt_false, Qcle_refl).
  rewrite E. cbn [orb].
  destruct (Fraction.gt b 1) eqn:E1; cbn [orb]; [reflexivity|].
  destruct (Fraction.lt b 0) eqn:E2; cbn [orb]; [reflexivity|].
  replace (b - b) with 0 by ring. reflexivity.
Qed.

Example compress_half_half :
  compress (frac 1 2) (frac 1 2) (fastcat true [pure "bd"%string; pure "sd"%string])
  = Throw (JsError "Division by Zero").
Proof. vm_compute. reflexivity. Qed.

(** The documented use: [s("bd sd").compress(.25, .75)]. *)
Example compress_quarter_three_quarters :
  showRes (r <- compress (frac 1 4) (frac 3 4)
                   (fastcat true [pure "bd"%string; pure "sd"%string]) ;;
           query r firstCycle)
  = inl [(Some (1 # 4, 1 # 2), (1 # 4, 1 # 2), "bd"%string);
         (Some (1 # 2, 3 # 4), (1 # 2, 3 # 4), "sd"%string)]%Q.
Proof. vm_compute. reflexivity. Qed.

(* ================================================================== *)
(** * [degradeBy] *)

Lemma mapM_map {A B C} (f : B -> Res C) (g : A -> B) (xs : list A) :
  mapM f (map g xs) = mapM (fun x => f (g x)) xs.
Proof.
  induction xs as [|x xs IH]; simpl; [reflexivity|]. rewrite IH. reflexivity.
Qed.

Lemma flatMapM_map {A B C} (f : B -> Res (list C)) (g : A -> B) (xs : list A) :
  flatMapM f (map g xs) = flatMapM (fun x => f (g x)) xs.
Proof. unfold flatMapM. rewrite mapM_map. reflexivity. Qed.

Lemma flatMapM_ext {A B} (f g : A -> Res (list B)) (xs : list A) :
  (forall x, In x xs -> f x = g x) -> flatMapM f xs = flatMapM g xs.
Proof. intros H. unfold flatMapM. rewrite (mapM_ext f g xs H). reflexivity. Qed.

Lemma flatMapM_Ok {A B} (k : A -> list B) (xs : list A) :
  flatMapM (fun x => Ok (k x)) xs = Ok (concat (map k xs)).
Proof. unfold flatMapM. rewrite mapM_Ok. reflexivity. Qed.

Lemma intersection_fits_left (inner outer : TimeSpan) :
  fits inner outer -> intersection inner outer = Some inner.
Proof.
  intros [Hwf [[Hb He] Hz]]. unfold wf in Hwf.
  unfold intersection.
  rewrite (max_left _ _ Hb), (min_left _ _ He).
  frac_cases; cbn [andb orb]; try (exfalso; qc_lra);
    try (destruct inner; reflexivity).
  all: exfalso.
  all: try match goal with
       | H : _ <> _ |- _ => apply H; qc_lra
       end.
  all: try (assert (E' : begin outer = end_ outer) by (apply Hz; qc_lra); qc_lra).
Qed.

Lemma timeToRand_zero : timeToRand 0 = 0.
Proof. apply Qc_is_canon. vm_compute. reflexivity. Qed.

(** The events [degradeByWith] keeps: for each event of the pattern the
    random signal is sampled at the begin of its whole (or part), and the
    event is kept exactly when the draw is greater than the amount. *)
Lemma query_degradeBy_func {A} (x : Qc) (p : Pattern A) state haps :
  query p state = Ok haps ->
  (forall h, In h haps -> fits (part h) (wholeOrPart h)) ->
  query (degradeBy_func x p) state
  = Ok (filter (fun h => Fraction.gt (timeToRand (begin (wholeOrPart h))) x) haps).
Proof.
  intros Eq Hfit.
  unfold degradeBy_func, _degradeByWith. rewrite query_preserve.
  unfold degradeByWith_func. cbn [query appLeft newPattern fmap withValue].
  rewrite Eq. cbn [bind].
  rewrite flatMapM_map.
  rewrite (flatMapM_ext _ (fun h => Ok (if Fraction.gt (timeToRand (begin (wholeOrPart h))) x
                                       then [h] else []))).
  - rewrite flatMapM_Ok. f_equal.
    clear. induction haps as [|h haps IH]; [reflexivity|].
    cbn [map filter concat]. rewrite IH.
    destruct (Fraction.gt _ x); reflexivity.
  - intros h Hin. specialize (Hfit h Hin).
    cbn [query rand signal filterValues setSteps newPattern bind span setSpan
         filter value newHap].
    replace (wholeOrPart (HapOps.withValue (fun a (_ : Qc) => a) h))
      with (wholeOrPart h) by (destruct h as [[w|] pt v c]; reflexivity).
    destruct (Fraction.gt (timeToRand (begin (wholeOrPart h))) x);
      cbn [map removeUndefineds]; [|reflexivity].
    cbn [part newHap HapOps.withValue].
    rewrite (intersection_fits_left _ _ Hfit). cbn [removeUndefineds].
    destruct h as [w pt v [l t]]. reflexivity.
Qed.

(** C3 on the code. The random draw at time 0 is exactly 0, and
    [degradeByWith] keeps an event only when its draw is strictly greater
    than the amount: [pure("x").degradeBy(1)] returns no event over the first
    cycle, and so does [pure("x").degradeBy(0)], where one event with value
    ["x"] is expected.  Nothing is logged in either case. *)
Theorem degradeBy_zero_drops_first_event :
  timeToRand 0 = 0
  /\ (exists r, degradeBy 1 (pure "x"%string) = Ok r
                /\ queryArc r 0 1 [] = ([], []))
  /\ (exists r, degradeBy 0 (pure "x"%string) = Ok r
                /\ queryArc r 0 1 [] = ([], [])).
Proof.
  split; [exact timeToRand_zero|].
  split; eexists; (split; [reflexivity|]); vm_compute; reflexivity.
Qed.

(** With the amount below the draw the event is kept. *)
Example degradeBy_second_cycle :
  showRes (r <- degradeBy (frac 1 2) (pure "x"%string) ;;
           query r (mkState (mkTimeSpan 1 (frac 2 1)) []))
  = inl [(Some (1, 2), (1, 2), "x"%string)]%Q.
Proof. vm_compute. reflexivity. Qed.

(* ================================================================== *)
(** * [queryArc] *)

Lemma queryArc_Ok {A} (p : Pattern A) (b e : Qc) ctl haps :
  query p (mkState (mkTimeSpan b e) ctl) = Ok haps ->
  queryArc p b e ctl = (haps, []).
Proof. intros E. unfold queryArc. rewrite E. reflexivity. Qed.



(* ================================================================== *)
(** * Stepwise functions on a pattern without steps *)

Lemma hasSteps_false {A} (pat : Pattern A) : _steps pat = None -> hasSteps pat = false.
Proof. unfold hasSteps. intros ->. reflexivity. Qed.

(** A call that returns [nothing] through a patternified method: no event,
    no log entry, zero steps. *)
Lemma patternified_nothing {A} (pat : Pattern A) (r : Res (Pattern A)) :
  r = Ok nothing ->
  exists result, patternified false pat r = Ok result
    /\ _steps result = Some 0
    /\ forall b e ctl, queryArc result b e ctl = ([], []).
Proof.
  intros ->. eexists. split; [reflexivity|]. split; [reflexivity|].
  intros b e ctl. apply queryArc_Ok. unfold preserve.
  rewrite query_withContext_nil. reflexivity.
Qed.

(** C4, as the code has it. On a pattern without steps, [take], [drop],
    [shrink] and [grow] return [nothing]: a pattern of zero steps whose
    queries return no event and log nothing.  [pace] returns the pattern it
    was given, and [expand] and [contract] a pattern with the same answers;
    all three stay without steps. *)
Theorem stepless_operators flag {A} (pat : Pattern A) :
  _steps pat = None ->
  (forall i, take_func flag i pat = Ok nothing
             /\ exists r, take flag i pat = Ok r /\ _steps r = Some 0
                          /\ forall b e ctl, queryArc r b e ctl = ([], []))
  /\ (forall i, drop_func flag i pat = Ok nothing
                /\ exists r, drop flag i pat = Ok r /\ _steps r = Some 0
                             /\ forall b e ctl, queryArc r b e ctl = ([], []))
  /\ (forall amount, shrink_func flag amount pat = Ok nothing
                /\ exists r, shrink flag amount pat = Ok r /\ _steps r = Some 0
                             /\ forall b e ctl, queryArc r b e ctl = ([], []))
  /\ (forall amount, grow_func flag amount pat = Ok nothing
                /\ exists r, grow flag amount pat = Ok r /\ _steps r = Some 0
                             /\ forall b e ctl, queryArc r b e ctl = ([], []))
  /\ (forall target, pace_func target pat = Ok pat
                /\ exists r, pace target pat = Ok r /\ _steps r = None
                             /\ equiv r pat)
  /\ (forall factor, exists r, expand flag factor pat = Ok r /\ _steps r = None
                               /\ equiv r pat)
  /\ (forall factor, exists r, contract flag factor pat = Ok r /\ _steps r = None
                               /\ equiv r pat).
Proof.
  intros Hs.
  assert (Etake : forall i, take_func flag i pat = Ok nothing)
    by (intros i; unfold take_func; rewrite Hs; reflexivity).
  assert (Edrop : forall i, drop_func flag i pat = Ok nothing)
    by (intros i; unfold drop_func; rewrite Hs; reflexivity).
  assert (Eshrink : forall a, shrink_func flag a pat = Ok nothing)
    by (intros a; unfold shrink_func; rewrite (hasSteps_false pat Hs); reflexivity).
  assert (Egrow : forall a, grow_func flag a pat = Ok nothing)
    by (intros a; unfold grow_func; rewrite (hasSteps_false pat Hs); reflexivity).
  assert (Epace : forall t, pace_func t pat = Ok pat)
    by (intros t; unfold pace_func; rewrite Hs; reflexivity).
  repeat split.
  - apply Etake.
  - apply patternified_nothing, Etake.
  - apply Edrop.
  - apply patternified_nothing, Edrop.
  - apply Eshrink.
  - apply patternified_nothing, Eshrink.
  - apply Egrow.
  - apply patternified_nothing, Egrow.
  - apply Epace.
  - unfold pace. rewrite Epace. eexists. split; [reflexivity|]. split.
    + unfold preserve, withContext. destruct (__pure pat); exact Hs.
    + intros state. unfold preserve. apply query_withContext_nil.
  - unfold expand, expand_func, withSteps. rewrite Hs.
    destruct flag; cbn [negb bind patternified]; eexists;
      (split; [reflexivity|]); (split; [unfold preserve, withContext;
         first [destruct (__pure pat); exact Hs | reflexivity]|]);
      intros state; unfold preserve; rewrite query_withContext_nil; reflexivity.
  - unfold contract, contract_func, withSteps. rewrite Hs.
    destruct flag; cbn [negb bind patternified]; eexists;
      (split; [reflexivity|]); (split; [unfold preserve, withContext;
         first [destruct (__pure pat); exact Hs | reflexivity]|]);
      intros state; unfold preserve; rewrite query_withContext_nil; reflexivity.
Qed.

Lemma stepless_operators_witness :
  _steps (steady "x"%string) = None
  /\ take_func true 1 (steady "x"%string) = Ok nothing
  /\ exists r, take true 1 (steady "x"%string) = Ok r /\ _steps r = Some 0
               /\ forall b e ctl, queryArc r b e ctl = ([], []).
Proof.
  split; [reflexivity|].
  exact (proj1 (stepless_operators true (steady "x"%string) eq_refl) 1).
Defined.

(** C4 as stated fails for [pace]: on the continuous pattern [steady("x")],
    which has no steps, [pace(4)] is not [nothing]: it has no steps rather
    than zero, and its query over the first cycle returns an event. *)
Lemma stepless_pace_counterexample :
  _steps (steady "x"%string) = None
  /\ exists r, pace (frac 4 1) (steady "x"%string) = Ok r
       /\ _steps r = None
       /\ _steps r <> _steps (@nothing string)
       /\ showRes (query r firstCycle) = inl [(None, (0, 1), "x"%string)]%Q
       /\ query r firstCycle <> query (@nothing string) firstCycle.
Proof.
  split; [reflexivity|]. eexists. split; [reflexivity|].
  split; [reflexivity|]. split; [discriminate|].
  split; [vm_compute; reflexivity|].
  intros E. apply (f_equal showRes) in E. vm_compute in E. discriminate E.
Qed.

(* ================================================================== *)
(** * [polymeter] and [zip] *)

Lemma filter_idem {A} (f : A -> bool) (xs : list A) :
  filter f (filter f xs) = filter f xs.
Proof.
  induction xs as [|x xs IH]; simpl; [reflexivity|].
  destruct (f x) eqn:E; simpl; rewrite ?E, IH; reflexivity.
Qed.

Lemma filter_stepless {A} (args : list (Pattern A)) :
  (forall p, In p args -> _steps p = None) -> filter hasSteps args = [].
Proof.
  induction args as [|p args IH]; intros H; simpl; [reflexivity|].
  rewrite (hasSteps_false p (H p (or_introl eq_refl))).
  apply IH. intros q Hq. apply H. right. exact Hq.
Qed.

(** C10. [polymeter] first drops every argument without steps, so the call
    equals the call on the arguments that have steps; when no argument has
    steps the result is [silence]; when the lcm of the step counts left is
    zero the result is [nothing].  [zip] drops the arguments without steps in
    the same way. *)
Theorem polymeter_ignores_stepless flag {A} (args : list (Pattern A)) :
  polymeter flag args = polymeter flag (filter hasSteps args)
  /\ ((forall p, In p args -> _steps p = None) -> polymeter flag args = Ok silence)
  /\ (Fraction.lcm (map _steps (filter hasSteps args)) = Some 0 ->
      polymeter flag args = Ok nothing)
  /\ zip flag args = zip flag (filter hasSteps args).
Proof.
  split; [|split; [|split]].
  - unfold polymeter. rewrite filter_idem. reflexivity.
  - intros H. unfold polymeter. rewrite (filter_stepless args H). reflexivity.
  - intros H. unfold polymeter.
    destruct (filter hasSteps args) as [|p rest] eqn:E; [discriminate H|].
    cbn [length Nat.eqb]. rewrite H. reflexivity.
  - unfold zip. rewrite filter_idem. reflexivity.
Qed.

Lemma polymeter_ignores_stepless_witness :
  (forall p, In p [steady "x"%string; signal (fun _ => "y"%string)] -> _steps p = None)
  /\ polymeter true [steady "x"%string; signal (fun _ => "y"%string)] = Ok silence
  /\ Fraction.lcm (map _steps (filter hasSteps [steady "x"%string; nothing; pure "a"%string]))
     = Some 0
  /\ polymeter true [steady "x"%string; nothing; pure "a"%string] = Ok nothing.
Proof.
  assert (H1 : forall p, In p [steady "x"%string; signal (fun _ => "y"%string)] ->
                         _steps p = None)
    by (intros p [<-|[<-|[]]]; reflexivity).
  assert (H2 : Fraction.lcm (map _steps (filter hasSteps
                 [steady "x"%string; nothing; pure "a"%string])) = Some 0)
    by (cbn; f_equal; apply Qc_is_canon; reflexivity).
  split; [exact H1|].
  split; [exact (proj1 (proj2 (polymeter_ignores_stepless true _)) H1)|].
  split; [exact H2|].
  exact (proj1 (proj2 (proj2 (polymeter_ignores_stepless true _))) H2).
Defined.

(** Scenario: two and three steps align on six. *)
Example polymeter_two_three :
  (r <- polymeter true [fastcat true [pure "a"%string; pure "b"%string];
                        fastcat true [pure "c"%string; pure "d"%string; pure "e"%string]] ;;
   Ok (option_map this (_steps r)))
  = Ok (Some (6 # 1)%Q)
  /\ (r <- polymeter true [fastcat true [pure "a"%string; pure "b"%string];
                           steady "x"%string;
                           fastcat true [pure "c"%string; pure "d"%string; pure "e"%string]] ;;
      Ok (option_map this (_steps r)))
     = Ok (Some (6 # 1)%Q).
Proof. split; vm_compute; reflexivity. Qed.
(* ================================================================== *)
(** * Time shifts *)

Lemma mapSpan_ext (f g : Qc -> Qc) (s : TimeSpan) :
  (forall t, f t = g t) -> mapSpan f s = mapSpan g s.
Proof. intros H. unfold mapSpan. rewrite !H. reflexivity. Qed.

Lemma mapHapTime_ext {A} (f g : Qc -> Qc) (h : Hap A) :
  (forall t, f t = g t) -> mapHapTime f h = mapHapTime g h.
Proof.
  intros H. unfold mapHapTime. rewrite (mapSpan_ext f g (part h) H).
  destruct (whole h) as [w|]; simpl; [rewrite (mapSpan_ext f g w H)|];
    reflexivity.
Qed.

Lemma query_early_func {A} (t : Qc) (p : Pattern A) state :
  query (early_func t p) state
  = haps <- query p (setSpan state (mapSpan (fun u => u + t) (span state))) ;;
    Ok (map (mapHapTime (fun u => u - t)) haps).
Proof.
  unfold early_func. rewrite query_withHapTime_Ok, query_withQueryTime_Ok.
  reflexivity.
Qed.

Lemma query__early {A} (t : Qc) (p : Pattern A) state :
  query (_early t p) state
  = haps <- query p (setSpan state (mapSpan (fun u => u + t) (span state))) ;;
    Ok (map (mapHapTime (fun u => u - t)) haps).
Proof. unfold _early. rewrite query_preserve. apply query_early_func. Qed.

Lemma query__late {A} (t : Qc) (p : Pattern A) state :
  query (_late t p) state
  = haps <- query p (setSpan state (mapSpan (fun u => u - t) (span state))) ;;
    Ok (map (mapHapTime (fun u => u + t)) haps).
Proof.
  unfold _late, late_func. rewrite query_preserve, query__early.
  rewrite (mapSpan_ext (fun u => u + (0 - t)) (fun u => u - t))
    by (intros u; ring).
  destruct (query p _) as [haps|e]; simpl; [|reflexivity].
  f_equal. apply map_ext. intros h. apply mapHapTime_ext. intros u. ring.
Qed.

Lemma patternified_Ok {A} b (pat result r : Pattern A) :
  patternified b pat (Ok result) = Ok r ->
  r = preserve b pat
        (withContext (fun context =>
                        mkContext (locations context ++ []) (tags context))
                     result).
Proof. unfold patternified. cbn [bind]. congruence. Qed.

Lemma query_patternified {A} b (pat result r : Pattern A) state :
  patternified b pat (Ok result) = Ok r ->
  query r state = query result state.
Proof.
  intros E. rewrite (patternified_Ok _ _ _ _ E).
  rewrite query_preserve. apply query_withContext_nil.
Qed.

Lemma steps_patternified {A} (pat result r : Pattern A) :
  patternified true pat (Ok result) = Ok r -> _steps r = _steps pat.
Proof. intros E. rewrite (patternified_Ok _ _ _ _ E). reflexivity. Qed.

Lemma query_early {A} (t : Qc) (p r : Pattern A) state :
  early t p = Ok r -> query r state = query (_early t p) state.
Proof.
  intros E. rewrite (query_patternified _ _ _ _ _ E).
  unfold _early. rewrite query_preserve. reflexivity.
Qed.

Lemma query_late {A} (t : Qc) (p r : Pattern A) state :
  late t p = Ok r -> query r state = query (_late t p) state.
Proof.
  intros E. rewrite (query_patternified _ _ _ _ _ E).
  unfold _late. rewrite query_preserve. reflexivity.
Qed.

Lemma steps_early {A} (t : Qc) (p r : Pattern A) :
  early t p = Ok r -> _steps r = _steps p.
Proof. apply steps_patternified. Qed.

Lemma steps_late {A} (t : Qc) (p r : Pattern A) :
  late t p = Ok r -> _steps r = _steps p.
Proof. apply steps_patternified. Qed.

(** Moving the query span by [f] and the events back by [g], twice. *)
Lemma query_retime_twice {A} (f g f' g' : Qc -> Qc) (p : Pattern A) state :
  (haps <- (haps <- query p (setSpan (setSpan state (mapSpan f' (span state)))
                       (mapSpan f (span (setSpan state (mapSpan f' (span state)))))) ;;
            Ok (map (mapHapTime g) haps)) ;;
   Ok (map (mapHapTime g') haps))
  = haps <- query p (setSpan state (mapSpan (fun u => f (f' u)) (span state))) ;;
    Ok (map (mapHapTime (fun u => g' (g u))) haps).
Proof.
  cbn [span setSpan]. rewrite mapSpan_mapSpan.
  destruct (query p _) as [haps|e]; simpl; [|reflexivity].
  f_equal. rewrite map_map. apply map_ext. intros h.
  apply mapHapTime_mapHapTime.
Qed.

Lemma query_retime_id {A} (f g : Qc -> Qc) (p : Pattern A) state :
  (forall u, f u = u) -> (forall u, g u = u) ->
  (haps <- query p (setSpan state (mapSpan f (span state))) ;;
   Ok (map (mapHapTime g) haps))
  = query p state.
Proof.
  intros Hf Hg. rewrite (mapSpan_id _ _ Hf), setSpan_span.
  destruct (query p state) as [haps|e]; simpl; [|reflexivity].
  f_equal. apply map_id_ext. intros h. apply mapHapTime_id. exact Hg.
Qed.

(** X1. [p.early(t).late(t)] and [p.late(t).early(t)] answer every query
    exactly as [p] does (the same events or the same exception) and keep the
    step count of [p], for every offset [t]. *)
Theorem early_late_inverse {A} (t : Qc) (p : Pattern A) :
  (exists r r', early t p = Ok r /\ late t r = Ok r'
                /\ equiv r' p /\ _steps r' = _steps p)
  /\ (exists r r', late t p = Ok r /\ early t r = Ok r'
                   /\ equiv r' p /\ _steps r' = _steps p).
Proof.
  split.
  - destruct (early t p) as [r|] eqn:Er; [|discriminate Er].
    destruct (late t r) as [r'|] eqn:Er'; [|discriminate Er'].
    exists r, r'. split; [reflexivity|]. split; [exact Er'|]. split.
    + intros state. rewrite (query_late _ _ _ _ Er'), query__late.
      rewrite (query_early _ _ _ _ Er), query__early.
      rewrite query_retime_twice. apply query_retime_id; intros u; ring.
    + rewrite (steps_late _ _ _ Er'). apply (steps_early _ _ _ Er).
  - destruct (late t p) as [r|] eqn:Er; [|discriminate Er].
    destruct (early t r) as [r'|] eqn:Er'; [|discriminate Er'].
    exists r, r'. split; [reflexivity|]. split; [exact Er'|]. split.
    + intros state. rewrite (query_early _ _ _ _ Er'), query__early.
      rewrite (query_late _ _ _ _ Er), query__late.
      rewrite query_retime_twice. apply query_retime_id; intros u; ring.
    + rewrite (steps_early _ _ _ Er'). apply (steps_late _ _ _ Er).
Qed.

(** X2. Time shifts add up: [p._early(b)._early(a)] answers every query as
    [p._early(a + b)] does, [p._early(0)] as [p] itself, and a shift to the
    left followed by a shift to the right is the shift by the difference. *)
Theorem early_compose {A} (a b : Qc) (p : Pattern A) :
  equiv (_early a (_early b p)) (_early (a + b) p)
  /\ equiv (_early 0 p) p
  /\ equiv (_late a (_early b p)) (_early (b - a) p).
Proof.
  split; [|split]; intros state.
  - rewrite !query__early, query_retime_twice.
    rewrite (mapSpan_ext _ (fun u => u + (a + b))) by (intros u; ring).
    destruct (query p _) as [haps|e]; simpl; [|reflexivity].
    f_equal. apply map_ext. intros h. apply mapHapTime_ext. intros u. ring.
  - rewrite query__early. apply query_retime_id; intros u; ring.
  - rewrite query__late, !query__early, query_retime_twice.
    rewrite (mapSpan_ext _ (fun u => u + (b - a))) by (intros u; ring).
    destruct (query p _) as [haps|e]; simpl; [|reflexivity].
    f_equal. apply map_ext. intros h. apply mapHapTime_ext. intros u. ring.
Qed.
(* ================================================================== *)
(** * Composition of [fast], [stack] and the time shifts *)

Lemma query__fast {A} (k : JsNum) (p : Pattern A) state :
  toFraction k <> 0 ->
  query (_fast k p) state
  = haps <- query p (setSpan state (mapSpan (fun t => t * toFraction k) (span state))) ;;
    Ok (map (mapHapTime (fun t => t / toFraction k)) haps).
Proof.
  intros Hk. unfold _fast. rewrite query_preserve. apply query_fast_func.
  exact Hk.
Qed.

Lemma steps__fast {A} (k : JsNum) (p : Pattern A) :
  _steps (_fast k p) = _steps p.
Proof. reflexivity. Qed.

(** [field], with the side conditions closed by the hypotheses. *)
Ltac qc_field := field; repeat split; solve [assumption | discriminate].

Lemma product_nonzero (a b : Qc) : a <> 0 -> b <> 0 -> a * b <> 0.
Proof.
  intros Ha Hb E. destruct (Qcmult_integral _ _ E); contradiction.
Qed.

Lemma query_retime_ext {A} (f f' g g' : Qc -> Qc) (p : Pattern A) state :
  (forall u, f u = f' u) -> (forall u, g u = g' u) ->
  (haps <- query p (setSpan state (mapSpan f (span state))) ;;
   Ok (map (mapHapTime g) haps))
  = (haps <- query p (setSpan state (mapSpan f' (span state))) ;;
     Ok (map (mapHapTime g') haps)).
Proof.
  intros Hf Hg. rewrite (mapSpan_ext f f' _ Hf).
  destruct (query p _) as [haps|e]; simpl; [|reflexivity].
  f_equal. apply map_ext. intros h. apply mapHapTime_ext. exact Hg.
Qed.

(** X3. Speeding up twice multiplies the factors: for non-zero [a] and [b],
    [p._fast(b)._fast(a)] answers every query as [p._fast(a * b)] does, and
    keeps the step count of [p]. *)
Theorem fast_compose {A} (a b : JsNum) (p : Pattern A) :
  toFraction a <> 0 -> toFraction b <> 0 ->
  equiv (_fast a (_fast b p)) (_fast (Frac (toFraction a * toFraction b)) p)
  /\ _steps (_fast a (_fast b p)) = _steps p.
Proof.
  intros Ha Hb. split; [|reflexivity]. intros state.
  rewrite (query__fast a) by exact Ha. rewrite (query__fast b) by exact Hb.
  rewrite (query__fast (Frac _)) by (apply product_nonzero; assumption).
  rewrite query_retime_twice. cbn [toFraction].
  apply query_retime_ext; intros u; qc_field.
Qed.

Lemma three_nonzero : toFraction (Num (frac 3 1)) <> 0.
Proof. intros H. apply Qc_eq_this in H. vm_compute in H. discriminate H. Qed.

Lemma fast_compose_witness :
  equiv (_fast (Num (frac 2 1)) (_fast (Num (frac 3 1)) (pure "x"%string)))
        (_fast (Frac (toFraction (Num (frac 2 1)) * toFraction (Num (frac 3 1))))
               (pure "x"%string))
  /\ _steps (_fast (Num (frac 2 1)) (_fast (Num (frac 3 1)) (pure "x"%string)))
     = _steps (pure "x"%string).
Proof.
  exact (fast_compose (Num (frac 2 1)) (Num (frac 3 1)) (pure "x"%string)
           two_nonzero three_nonzero).
Defined.

(** X4. A shift inside a speed-up is the scaled shift outside: for a
    non-zero [k], [p._early(t)._fast(k)] answers every query as
    [p._fast(k)._early(t / k)] does. *)
Theorem fast_early_commute {A} (k : JsNum) (t : Qc) (p : Pattern A) :
  toFraction k <> 0 ->
  equiv (_fast k (_early t p)) (_early (t / toFraction k) (_fast k p)).
Proof.
  intros Hk state.
  rewrite (query__fast k) by exact Hk. rewrite !query__early.
  rewrite (query__fast k) by exact Hk. rewrite !query_retime_twice.
  apply query_retime_ext; intros u; qc_field.
Qed.

Lemma fast_early_commute_witness :
  equiv (_fast (Num (frac 2 1)) (_early (frac 1 4) (pure "x"%string)))
        (_early (frac 1 4 / toFraction (Num (frac 2 1)))
                (_fast (Num (frac 2 1)) (pure "x"%string))).
Proof.
  exact (fast_early_commute (Num (frac 2 1)) (frac 1 4) (pure "x"%string)
           two_nonzero).
Defined.

Lemma slow_func_nonzero {A} (k : JsNum) (p : Pattern A) :
  toFraction k <> 0 ->
  slow_func k p = Ok (_fast (Frac (1 / toFraction k)) p).
Proof.
  intros Hk. unfold slow_func.
  rewrite (isNumberZero_false k Hk), (div_nonzero 1 _ Hk). reflexivity.
Qed.

(** X5. [inside(k, f)] applies [f] at the time scale [k]: for a non-zero
    [k], [p.inside(k, x => x._early(t))] answers every query as
    [p._early(t / k)] does, and [p.inside(k, x => x)] as [p] itself. *)
Theorem inside_early {A} (k : JsNum) (t : Qc) (p : Pattern A) :
  toFraction k <> 0 ->
  (exists r, inside_func k (fun x => Ok (_early t x)) p = Ok r
             /\ equiv r (_early (t / toFraction k) p))
  /\ (exists r, inside_func k (fun x => Ok x) p = Ok r /\ equiv r p).
Proof.
  intros Hk. pose proof (inverse_nonzero _ Hk) as Hk'.
  unfold inside_func, _slow, underscored.
  rewrite (slow_func_nonzero k p Hk). cbn [bind preserve].
  split; (eexists; split; [reflexivity|]); intros state.
  - rewrite (query__fast k) by exact Hk. rewrite !query__early.
    rewrite (query__fast (Frac _)) by exact Hk'.
    rewrite !query_retime_twice. cbn [toFraction].
    apply query_retime_ext; intros u; qc_field.
  - rewrite (query__fast k) by exact Hk.
    rewrite (query__fast (Frac _)) by exact Hk'.
    rewrite query_retime_twice. cbn [toFraction].
    apply query_retime_id; intros u; qc_field.
Qed.

Lemma inside_early_witness :
  (exists r, inside_func (Num (frac 2 1)) (fun x => Ok (_early (frac 1 4) x))
               (pure "x"%string) = Ok r
             /\ equiv r (_early (frac 1 4 / toFraction (Num (frac 2 1)))
                                (pure "x"%string)))
  /\ (exists r, inside_func (Num (frac 2 1)) (fun x => Ok x) (pure "x"%string)
                = Ok r /\ equiv r (pure "x"%string)).
Proof.
  exact (inside_early (Num (frac 2 1)) (frac 1 4) (pure "x"%string) two_nonzero).
Defined.
(* ================================================================== *)
(** * [stack] and [fmap] *)

Lemma flatMapM_cons {A B} (f : A -> Res (list B)) (x : A) (xs : list A) :
  flatMapM f (x :: xs) = (ys <- f x ;; zs <- flatMapM f xs ;; Ok (ys ++ zs)).
Proof.
  unfold flatMapM. simpl. destruct (f x) as [ys|e]; simpl; [|reflexivity].
  destruct (mapM f xs) as [yss|e]; reflexivity.
Qed.

Lemma flatMapM_nil {A B} (f : A -> Res (list B)) : flatMapM f [] = Ok [].
Proof. reflexivity. Qed.

Lemma flatMapM_app {A B} (f : A -> Res (list B)) (xs ys : list A) :
  flatMapM f (xs ++ ys)
  = (us <- flatMapM f xs ;; vs <- flatMapM f ys ;; Ok (us ++ vs)).
Proof.
  induction xs as [|x xs IH].
  - simpl app. rewrite flatMapM_nil. cbn [bind].
    destruct (flatMapM f ys); reflexivity.
  - simpl app. rewrite !flatMapM_cons, IH.
    destruct (f x) as [a|e]; simpl; [|reflexivity].
    destruct (flatMapM f xs) as [b|e]; simpl; [|reflexivity].
    destruct (flatMapM f ys) as [c|e]; simpl; [|reflexivity].
    rewrite app_assoc. reflexivity.
Qed.

Lemma flatMapM_then_map {A B C} (f : A -> Res (list B)) (g : B -> C)
    (xs : list A) :
  (ys <- flatMapM f xs ;; Ok (map g ys))
  = flatMapM (fun x => ys <- f x ;; Ok (map g ys)) xs.
Proof.
  induction xs as [|x xs IH]; [reflexivity|].
  rewrite !flatMapM_cons, <- IH.
  destruct (f x) as [a|e]; simpl; [|reflexivity].
  destruct (flatMapM f xs) as [b|e]; simpl; [|reflexivity].
  rewrite map_app. reflexivity.
Qed.

(** X6. Speeding up a stack is stacking the sped-up patterns: for a non-zero
    [k], [stack(...ps)._fast(k)] answers every query as
    [stack(...ps.map(p => p._fast(k)))] does (the same events in the same
    order, or the same exception), with the same step count. *)
Theorem stack_fast flag {A} (k : JsNum) (ps : list (Pattern A)) :
  toFraction k <> 0 ->
  equiv (_fast k (stack flag ps)) (stack flag (map (_fast k) ps))
  /\ _steps (_fast k (stack flag ps)) = _steps (stack flag (map (_fast k) ps)).
Proof.
  intros Hk. split.
  - intros state. rewrite (query__fast k) by exact Hk.
    rewrite !query_stack, flatMapM_map, flatMapM_then_map.
    apply flatMapM_ext. intros p _. rewrite (query__fast k) by exact Hk.
    reflexivity.
  - rewrite steps__fast. unfold stack. rewrite map_map.
    destruct flag; reflexivity.
Qed.

Lemma stack_fast_witness :
  equiv (_fast (Num (frac 2 1)) (stack true abc))
        (stack true (map (_fast (Num (frac 2 1))) abc))
  /\ _steps (_fast (Num (frac 2 1)) (stack true abc))
     = _steps (stack true (map (_fast (Num (frac 2 1))) abc)).
Proof. exact (stack_fast true (Num (frac 2 1)) abc two_nonzero). Defined.

(** X7. Nested stacks flatten: [stack(stack(...ps), stack(...qs))] answers
    every query as [stack(...ps, ...qs)] does, the events in the order of the
    arguments; a stack of one pattern answers as that pattern, and a stack
    of none has no events. *)
Theorem stack_flatten flag {A} (ps qs : list (Pattern A)) (p : Pattern A) :
  equiv (stack flag [stack flag ps; stack flag qs]) (stack flag (ps ++ qs))
  /\ equiv (stack flag [p]) p
  /\ silent (stack flag (@nil (Pattern A))).
Proof.
  split; [|split]; intros state; rewrite !query_stack.
  - rewrite flatMapM_app, flatMapM_cons.
    rewrite (flatMapM_single (fun pat => query pat state)), !query_stack.
    reflexivity.
  - apply (flatMapM_single (fun pat => query pat state) p).
  - reflexivity.
Qed.

(** X8. [fmap] is a functor on patterns: [p.fmap(f).fmap(g)] answers every
    query as [p.fmap(x => g(f(x)))] does, mapping the identity changes
    nothing, and the step count of [p] is kept. *)
Theorem fmap_compose {A B C} (f : A -> B) (g : B -> C) (p : Pattern A) :
  equiv (fmap g (fmap f p)) (fmap (fun x => g (f x)) p)
  /\ equiv (fmap (fun x => x) p) p
  /\ _steps (fmap g (fmap f p)) = _steps p.
Proof.
  split; [|split; [|reflexivity]]; intros state; cbn [fmap withValue query newPattern].
  - destruct (query p state) as [haps|e]; simpl; [|reflexivity].
    rewrite map_map. reflexivity.
  - destruct (query p state) as [haps|e]; simpl; [|reflexivity].
    f_equal. apply map_id_ext. intros [w pt v c]. reflexivity.
Qed.
(* ================================================================== *)
(** * Queries cycle by cycle *)

Lemma spanCycles_loop_backwards (fuel : nat) (b e : Qc) :
  e <= b -> spanCycles_loop fuel b e = [].
Proof.
  intros H. destruct fuel; [reflexivity|]. cbn [spanCycles_loop].
  rewrite (proj2 (gt_false _ _) H). reflexivity.
Qed.

(** Every piece of a split span lies in one cycle, whatever the span. *)
Lemma spanCycles_oneCycle (s piece : TimeSpan) :
  In piece (spanCycles s) -> oneCycle piece.
Proof.
  intros Hin. destruct (Qclt_le_dec (end_ s) (begin s)) as [Hlt|Hle].
  - exfalso. unfold spanCycles in Hin.
    destruct (Fraction.eq (begin s) (end_ s)) eqn:E.
    + apply eq_spec in E. rewrite E in Hlt. exact (Qclt_not_eq _ _ Hlt eq_refl).
    + rewrite spanCycles_loop_backwards in Hin by (apply Qclt_le_weak; exact Hlt).
      destruct Hin.
  - destruct (spanCycles_inside s piece Hle Hin) as [Hwf [_ Hc]].
    split; assumption.
Qed.

Lemma query_splitQueries {A} (p : Pattern A) state :
  query (splitQueries p) state
  = flatMapM (fun subspan => query p (setSpan state subspan))
             (spanCycles (span state)).
Proof. reflexivity. Qed.

Lemma query_splitQueries_oneCycle {A} (p : Pattern A) state :
  oneCycle (span state) -> query (splitQueries p) state = query p state.
Proof.
  intros [Hwf Hc]. rewrite query_splitQueries.
  rewrite (spanCycles_single _ Hwf Hc).
  rewrite (flatMapM_single (fun subspan => query p (setSpan state subspan))).
  rewrite setSpan_span. reflexivity.
Qed.

(** X9. Splitting queries at cycle boundaries is idempotent:
    [p.splitQueries().splitQueries()] answers every query as
    [p.splitQueries()] does; and on a span that lies in one cycle
    [p.splitQueries()] answers as [p] itself. *)
Theorem splitQueries_idempotent {A} (p : Pattern A) :
  equiv (splitQueries (splitQueries p)) (splitQueries p)
  /\ forall state, oneCycle (span state) ->
       query (splitQueries p) state = query p state.
Proof.
  split; [|intros state; apply query_splitQueries_oneCycle].
  intros state. rewrite (query_splitQueries (splitQueries p)).
  rewrite (query_splitQueries p). apply flatMapM_ext. intros piece Hin.
  apply query_splitQueries_oneCycle. exact (spanCycles_oneCycle _ _ Hin).
Qed.

(* ================================================================== *)
(** * [slowcatPrime], [firstOf] and [lastOf] *)



Lemma arrayFill_negative {A} (n : Z) (x : A) :
  (n < 0)%Z -> arrayFill n x = Throw (JsError "Invalid array length").
Proof.
  intros H. unfold arrayFill. destruct (Z.ltb_spec n 0); [reflexivity|lia].
Qed.



Lemma oneCycle_fourthCycle : oneCycle (span fourthCycle).
Proof. split; qc_decide. Qed.




(** X12. [p.firstOf(n, f)] and [p.lastOf(n, f)] with [n <= 0] raise the
    range error of [Array(n - 1)], before [f] is called. *)
Theorem firstOf_lastOf_range {A} (n : Z) (f : Pattern A -> Res (Pattern A))
    (p : Pattern A) :
  (n <= 0)%Z ->
  firstOf n f p = Throw (JsError "Invalid array length")
  /\ lastOf n f p = Throw (JsError "Invalid array length").
Proof.
  intros Hn. unfold firstOf, firstOf_func, lastOf, lastOf_func.
  rewrite arrayFill_negative by lia. split; reflexivity.
Qed.

Lemma firstOf_lastOf_range_witness :
  firstOf 0 (fun x => Ok x) (pure "x"%string)
  = Throw (JsError "Invalid array length")
  /\ lastOf 0 (fun x => Ok x) (pure "x"%string)
     = Throw (JsError "Invalid array length").
Proof.
  apply (firstOf_lastOf_range 0 (fun x => Ok x) (pure "x"%string)). lia.
Defined.
(* ================================================================== *)
(** * [rev] *)

Lemma sam_between (b x : Qc) :
  Fraction.sam b <= x -> x < Fraction.nextSam b ->
  Fraction.sam x = Fraction.sam b.
Proof.
  intros Hlo Hhi. unfold Fraction.sam, Fraction.floor. f_equal.
  apply floorZ_unique; unfold Fraction.nextSam, Fraction.sam, Fraction.floor in *;
    assumption.
Qed.

Lemma spanCycles_loop_positive (fuel : nat) : forall b e piece,
  In piece (spanCycles_loop fuel b e) -> begin piece < end_ piece.
Proof.
  induction fuel as [|fuel IH]; intros b e piece Hin; [destruct Hin|].
  cbn [spanCycles_loop] in Hin. revert Hin. frac_cases; intros Hin.
  - destruct Hin as [<-|[]]. cbn [begin end_]. assumption.
  - destruct Hin as [<-|Hin]; [|exact (IH _ _ _ Hin)].
    cbn [begin end_]. apply lt_nextSam.
  - destruct Hin.
Qed.

(** The pieces of a span of positive width have positive width. *)
Lemma spanCycles_positive (s piece : TimeSpan) :
  begin s < end_ s -> In piece (spanCycles s) -> begin piece < end_ piece.
Proof.
  intros Hlt Hin. unfold spanCycles in Hin.
  destruct (Fraction.eq (begin s) (end_ s)) eqn:E.
  - apply eq_spec in E. rewrite E in Hlt. destruct (Qclt_not_eq _ _ Hlt eq_refl).
  - exact (spanCycles_loop_positive _ _ _ _ Hin).
Qed.

Lemma rev_reflect_Ok (c n : Qc) (s : TimeSpan) :
  rev_reflect c n s = Ok (mkTimeSpan (c + (n - end_ s)) (c + (n - begin s))).
Proof. reflexivity. Qed.

Lemma query_rev_query {A} (p : Pattern A) state :
  rev_query p state
  = let c := Fraction.sam (begin (span state)) in
    let n := Fraction.nextSam (begin (span state)) in
    let reflect := fun s => mkTimeSpan (c + (n - end_ s)) (c + (n - begin s)) in
    haps <- query p (setSpan state (reflect (span state))) ;;
    Ok (map (fun h => mkHap (option_map reflect (whole h)) (reflect (part h))
                            (value h) (context h)) haps).
Proof.
  unfold rev_query. cbv zeta. rewrite rev_reflect_Ok. cbn [bind].
  destruct (query p _) as [haps|e]; cbn [bind]; [|reflexivity].
  rewrite <- mapM_Ok. apply mapM_ext. intros h _.
  apply (withSpan_Ok (fun s => mkTimeSpan _ _)).
Qed.

Lemma reflect_twice (c n : Qc) (s : TimeSpan) :
  mkTimeSpan (c + (n - end_ (mkTimeSpan (c + (n - end_ s)) (c + (n - begin s)))))
             (c + (n - begin (mkTimeSpan (c + (n - end_ s)) (c + (n - begin s)))))
  = s.
Proof. destruct s as [b e]. cbn [begin end_]. f_equal; ring. Qed.

(** On a span of positive width inside one cycle, [rev] twice is the
    pattern itself. *)
Lemma rev_query_twice {A} (p : Pattern A) state :
  begin (span state) < end_ (span state) -> oneCycle (span state) ->
  rev_query (rev_ p) state = query p state.
Proof.
  intros Hlt [Hwf Hc].
  pose proof (sam_le (begin (span state))) as Hsam.
  set (c := Fraction.sam (begin (span state))) in *.
  assert (Hn : Fraction.nextSam (begin (span state)) = c + 1) by reflexivity.
  rewrite Hn in Hc.
  rewrite query_rev_query. cbv zeta. fold c. rewrite Hn.
  set (s' := mkTimeSpan (c + (c + 1 - end_ (span state)))
                        (c + (c + 1 - begin (span state)))).
  assert (Hc' : Fraction.sam (begin s') = c).
  { unfold s', c. cbn [begin]. apply sam_between.
    - fold c. qc_lra.
    - unfold Fraction.nextSam. fold c. qc_lra. }
  assert (Hone : oneCycle (span (setSpan state s'))).
  { cbn [span setSpan]. unfold oneCycle, Fraction.nextSam. rewrite Hc'.
    unfold s'. cbn [begin end_]. split; qc_lra. }
  unfold rev_, rev_func. rewrite query_preserve.
  rewrite (query_splitQueries_oneCycle _ _ Hone). cbn [query newPattern].
  rewrite query_rev_query. cbv zeta. cbn [span setSpan].
  unfold Fraction.nextSam. rewrite Hc'. unfold s'. rewrite reflect_twice.
  rewrite setSpan_setSpan, setSpan_span.
  destruct (query p state) as [haps|e]; cbn [bind]; [|reflexivity].
  f_equal. rewrite map_map. apply map_id_ext. intros [w pt v ctx].
  cbn [whole part value context]. rewrite reflect_twice.
  destruct w as [w|]; cbn [option_map]; [rewrite reflect_twice|]; reflexivity.
Qed.

(** X13. Reversing twice gives the pattern back: on every query span of
    positive width, [p.rev().rev()] answers as [p.splitQueries()] does (so
    as [p] itself on a span inside one cycle), and it keeps the step count
    of [p]. *)
Theorem rev_involution {A} (p : Pattern A) state :
  begin (span state) < end_ (span state) ->
  query (rev_ (rev_ p)) state = query (splitQueries p) state
  /\ _steps (rev_ (rev_ p)) = _steps p.
Proof.
  intros Hlt. split; [|reflexivity].
  unfold rev_ at 1. rewrite query_preserve. unfold rev_func.
  rewrite !query_splitQueries. apply flatMapM_ext. intros piece Hin.
  cbn [query newPattern]. apply rev_query_twice; cbn [span setSpan].
  - exact (spanCycles_positive _ _ Hlt Hin).
  - exact (spanCycles_oneCycle _ _ Hin).
Qed.

Lemma rev_involution_witness :
  query (rev_ (rev_ (pure "x"%string))) fourthCycle
  = query (splitQueries (pure "x"%string)) fourthCycle
  /\ _steps (rev_ (rev_ (pure "x"%string))) = _steps (pure "x"%string).
Proof.
  apply (rev_involution (pure "x"%string) fourthCycle). qc_decide.
Defined.
(* ================================================================== *)
(** * [repeatCycles] *)

Lemma query_repeatCycles_query {A} (n : Qc) (p : Pattern A) state :
  n <> 0 ->
  repeatCycles_query n p state
  = let cycle := Fraction.sam (begin (span state)) in
    let delta := cycle - Fraction.sam (cycle / n) in
    haps <- query p (setSpan state (mapSpan (fun t => t - delta) (span state))) ;;
    Ok (map (mapHapTime (fun t => t + delta)) haps).
Proof.
  intros Hn. unfold repeatCycles_query. cbv zeta.
  rewrite (div_nonzero _ _ Hn). cbn [bind]. rewrite withTime_Ok. cbn [bind].
  destruct (query p _) as [haps|e]; cbn [bind]; [|reflexivity].
  rewrite <- mapM_Ok. apply mapM_ext. intros h _.
  unfold HapOps.withSpan, mapHapTime.
  destruct (whole h); reflexivity.
Qed.

Lemma ofZ_nonzero (n : Z) : (1 <= n)%Z -> Fraction.ofZ n <> 0.
Proof. intros H E. rewrite <- ofZ_0 in E. apply ofZ_inj in E. lia. Qed.

Lemma spanCycles_nonempty (s : TimeSpan) : wf s -> spanCycles s <> [].
Proof.
  intros Hwf E. pose proof (spanCycles_chain s Hwf) as H. rewrite E in H.
  exact H.
Qed.

(** X14. [p._repeatCycles(n)] for an integer [n >= 1]: on a query span in
    the cycle of number [c] it answers with the events of the pattern in
    its cycle [floor(c / n)], moved later by [c - floor(c / n)] cycles; so
    [p._repeatCycles(1)] answers every query as [p.splitQueries()] does.
    The step count of [p] is kept. *)
Theorem repeatCycles_source {A} (n : Z) (p : Pattern A) state :
  (1 <= n)%Z -> oneCycle (span state) ->
  (let c := Fraction.floorZ (begin (span state)) in
   let delta := Fraction.ofZ c - Fraction.ofZ (c / n) in
   query (_repeatCycles (Fraction.ofZ n) p) state
   = haps <- query p (setSpan state (mapSpan (fun t => t - delta) (span state))) ;;
     Ok (map (mapHapTime (fun t => t + delta)) haps))
  /\ equiv (_repeatCycles 1 p) (splitQueries p)
  /\ _steps (_repeatCycles (Fraction.ofZ n) p) = _steps p.
Proof.
  intros Hn Hc. split; [|split; [|reflexivity]].
  - cbv zeta. unfold _repeatCycles, repeatCycles_func.
    rewrite query_preserve, (query_splitQueries_oneCycle _ _ Hc).
    cbn [query newPattern].
    rewrite (query_repeatCycles_query _ _ _ (ofZ_nonzero n Hn)). cbv zeta.
    unfold Fraction.sam, Fraction.floor.
    rewrite floorZ_div by lia. rewrite floorZ_ofZ. reflexivity.
  - intros st. unfold _repeatCycles, repeatCycles_func.
    rewrite query_preserve, !query_splitQueries.
    apply flatMapM_ext. intros piece _. cbn [query newPattern].
    rewrite query_repeatCycles_query by discriminate. cbv zeta.
    apply query_retime_id; intros u.
    + replace (Fraction.sam (begin (span (setSpan st piece))) / 1)
        with (Fraction.sam (begin (span (setSpan st piece)))) by (field; discriminate).
      unfold Fraction.sam at 2, Fraction.floor.
      unfold Fraction.sam, Fraction.floor. rewrite floorZ_ofZ. ring.
    + replace (Fraction.sam (begin (span (setSpan st piece))) / 1)
        with (Fraction.sam (begin (span (setSpan st piece)))) by (field; discriminate).
      unfold Fraction.sam, Fraction.floor. rewrite floorZ_ofZ. ring.
Qed.

Lemma repeatCycles_source_witness :
  (let c := Fraction.floorZ (begin (span fourthCycle)) in
   let delta := Fraction.ofZ c - Fraction.ofZ (c / 2) in
   query (_repeatCycles (Fraction.ofZ 2) (pure "x"%string)) fourthCycle
   = haps <- query (pure "x"%string)
               (setSpan fourthCycle (mapSpan (fun t => t - delta) (span fourthCycle))) ;;
     Ok (map (mapHapTime (fun t => t + delta)) haps))
  /\ equiv (_repeatCycles 1 (pure "x"%string)) (splitQueries (pure "x"%string))
  /\ _steps (_repeatCycles (Fraction.ofZ 2) (pure "x"%string))
     = _steps (pure "x"%string).
Proof.
  apply (repeatCycles_source 2 (pure "x"%string) fourthCycle).
  - lia.
  - exact oneCycle_fourthCycle.
Defined.

(** X15. [p._repeatCycles(0)] divides by zero: every query over a span that
    does not end before it begins raises the exception, whatever [p]. *)
Theorem repeatCycles_zero {A} (p : Pattern A) state :
  wf (span state) ->
  query (_repeatCycles 0 p) state = Throw (JsError "Division by Zero").
Proof.
  intros Hwf. unfold _repeatCycles, repeatCycles_func.
  rewrite query_preserve, query_splitQueries.
  destruct (spanCycles (span state)) as [|piece rest] eqn:E.
  - destruct (spanCycles_nonempty _ Hwf E).
  - rewrite flatMapM_cons. reflexivity.
Qed.

Lemma repeatCycles_zero_witness :
  query (_repeatCycles 0 (pure "x"%string)) fourthCycle
  = Throw (JsError "Division by Zero").
Proof.
  apply (repeatCycles_zero (pure "x"%string) fourthCycle).
  unfold wf. qc_decide.
Defined.
(* ================================================================== *)
(** * Random signals *)

Lemma ofZ_pos (n : Z) : (0 < n)%Z -> 0 < Fraction.ofZ n.
Proof. intros H. rewrite <- ofZ_0. apply ofZ_lt. exact H. Qed.

(** The draw at any time is a fraction from 0 (included) to 1 (excluded). *)
Lemma timeToRand_range (t : Qc) : 0 <= timeToRand t /\ timeToRand t < 1.
Proof.
  unfold timeToRand, intSeedToRand.
  set (r := Z.rem (timeToIntSeed t) 536870912).
  assert (Hr : (- 536870912 < r < 536870912)%Z).
  { pose proof (Z.rem_bound_abs (timeToIntSeed t) 536870912 ltac:(lia)).
    unfold r. lia. }
  assert (Hn : 0 < Fraction.ofZ 536870912) by (apply ofZ_pos; lia).
  assert (Hn0 : Fraction.ofZ 536870912 <> 0).
  { intros E. rewrite E in Hn. exact (Qclt_not_eq _ _ Hn eq_refl). }
  assert (Hlo : Fraction.ofZ (- 536870912) < Fraction.ofZ r)
    by (apply ofZ_lt; lia).
  assert (Hhi : Fraction.ofZ r < Fraction.ofZ 536870912)
    by (apply ofZ_lt; lia).
  assert (Hneg : Fraction.ofZ (- 536870912) = - Fraction.ofZ 536870912).
  { apply Qc_is_canon. reflexivity. }
  rewrite Hneg in Hlo.
  set (y := Fraction.ofZ r / Fraction.ofZ 536870912).
  assert (Hy : y * Fraction.ofZ 536870912 = Fraction.ofZ r)
    by (unfold y; field; exact Hn0).
  rewrite <- Hy in Hlo, Hhi.
  assert (Hy1 : y < 1).
  { apply Qcnot_le_lt. intros C.
    pose proof (Qcmult_le_compat_r _ _ _ C (Qclt_le_weak _ _ Hn)) as M.
    rewrite Qcmult_1_l in M. exact (Qcle_not_lt _ _ M Hhi). }
  assert (Hy2 : - (1) < y).
  { apply Qcnot_le_lt. intros C.
    pose proof (Qcmult_le_compat_r _ _ _ C (Qclt_le_weak _ _ Hn)) as M.
    replace (- (1) * Fraction.ofZ 536870912) with (- Fraction.ofZ 536870912)
      in M by ring.
    exact (Qcle_not_lt _ _ M Hlo). }
  unfold Fraction.abs. frac_cases; split; qc_lra.
Qed.

(** X16. The signal [rand] answers every query with one continuous event
    over the query span, whose value is a fraction from 0 (included) to 1
    (excluded). *)
Theorem rand_range (state : State) :
  exists v, query rand state = Ok [newHap None (span state) v]
            /\ 0 <= v /\ v < 1.
Proof.
  exists (timeToRand (begin (span state))). split; [reflexivity|].
  apply timeToRand_range.
Qed.

Lemma truncZ_nonneg (y : Qc) : 0 <= y -> truncZ y = Fraction.floorZ y.
Proof.
  intros Hy. unfold truncZ, Fraction.floorZ.
  destruct (this y) as [n d] eqn:E. cbn [Qnum Qden Qfloor].
  apply Z.quot_div_nonneg; [|lia].
  unfold Qcle in Hy. rewrite E in Hy. unfold Qle in Hy. cbn in Hy. lia.
Qed.

(** X17. [_irand(i)] for a positive [i] answers every query with one
    continuous event whose value is an integer from 0 (included) to [i]
    (excluded). *)
Theorem irand_range (i : Qc) (state : State) :
  0 < i ->
  exists v, query (_irand i) state = Ok [newHap None (span state) v]
            /\ (0 <= v)%Z /\ Fraction.ofZ v < i.
Proof.
  intros Hi. destruct (timeToRand_range (begin (span state))) as [Hlo Hhi].
  set (r := timeToRand (begin (span state))) in *.
  exists (truncZ (r * i)). split; [reflexivity|].
  assert (Hy : 0 <= r * i).
  { pose proof (Qcmult_le_compat_r 0 r i Hlo (Qclt_le_weak _ _ Hi)) as M.
    rewrite Qcmult_0_l in M. exact M. }
  rewrite (truncZ_nonneg _ Hy). split.
  - rewrite <- (floorZ_ofZ 0). apply floorZ_mono. rewrite ofZ_0. exact Hy.
  - pose proof (sam_le (r * i)) as Hs. unfold Fraction.sam, Fraction.floor in Hs.
    apply (Qcle_lt_trans _ _ _ Hs).
    pose proof (Qcmult_lt_compat_r _ _ _ Hi Hhi) as M.
    rewrite Qcmult_1_l in M. exact M.
Qed.

Lemma irand_range_witness :
  exists v, query (_irand (frac 8 1)) fourthCycle
            = Ok [newHap None (span fourthCycle) v]
            /\ (0 <= v)%Z /\ Fraction.ofZ v < frac 8 1.
Proof. apply (irand_range (frac 8 1) fourthCycle). qc_decide. Defined.


(** When no sample is greater than the amount, nothing is kept. *)
Lemma query_degradeByWith_none {A} (withPat : Pattern Qc) (f : Qc -> Qc)
    (x : Qc) (p : Pattern A) state :
  (forall st, query withPat st = Ok [newHap None (span st) (f (begin (span st)))]) ->
  (forall t, Fraction.gt (f t) x = false) ->
  query (degradeByWith_func withPat x p) state
  = (_ <- query p state ;; Ok []).
Proof.
  intros Hsig Hnone.
  unfold degradeByWith_func. cbn [query appLeft newPattern fmap withValue].
  destruct (query p state) as [haps|e]; cbn [bind]; [|reflexivity].
  rewrite flatMapM_map.
  rewrite (flatMapM_ext _ (fun _ => Ok [])).
  - rewrite flatMapM_Ok. f_equal. clear.
    induction haps as [|h haps IH]; [reflexivity|]. exact IH.
  - intros h _. cbn [query filterValues setSteps newPattern]. rewrite Hsig.
    cbn [bind span setSpan filter value newHap]. rewrite Hnone. reflexivity.
Qed.

Lemma query_rand_inverted st :
  query (fmap (fun r => 1 - r) rand) st
  = Ok [newHap None (span st) (1 - timeToRand (begin (span st)))].
Proof. reflexivity. Qed.

(** X18. With an amount of 1 or more nothing is left: [p._degradeBy(x)]
    and [p._undegradeBy(x)] return no event on any query that [p] answers
    (and raise the exception of [p] otherwise). *)
Theorem degradeBy_all {A} (x : Qc) (p : Pattern A) state :
  1 <= x ->
  query (_degradeBy x p) state = (_ <- query p state ;; Ok [])
  /\ query (_undegradeBy x p) state = (_ <- query p state ;; Ok []).
Proof.
  intros Hx. unfold _degradeBy, _undegradeBy, degradeBy_func, undegradeBy_func,
    _degradeByWith. rewrite !query_preserve. split.
  - apply (query_degradeByWith_none rand timeToRand); [reflexivity|].
    intros t. apply gt_false. destruct (timeToRand_range t). qc_lra.
  - apply (query_degradeByWith_none _ (fun t => 1 - timeToRand t));
      [exact query_rand_inverted|].
    intros t. apply gt_false. destruct (timeToRand_range t). qc_lra.
Qed.

Lemma degradeBy_all_witness :
  query (_degradeBy 1 (pure "x"%string)) fourthCycle
  = (_ <- query (pure "x"%string) fourthCycle ;; Ok [])
  /\ query (_undegradeBy 1 (pure "x"%string)) fourthCycle
     = (_ <- query (pure "x"%string) fourthCycle ;; Ok []).
Proof. apply (degradeBy_all 1 (pure "x"%string) fourthCycle). qc_decide. Defined.


(* ================================================================== *)
(** * Joins *)

Lemma assignContext_empty (c : Context) : assignContext emptyContext c = c.
Proof. destruct c as [l [|t ts]]; reflexivity. Qed.

Lemma query_bindWhole {A B}
    (choose_whole : option TimeSpan -> option TimeSpan -> Res (option TimeSpan))
    (func : A -> Res (Pattern B)) (pat_val : Pattern A) state :
  query (bindWhole choose_whole func pat_val) state
  = (outer <- query pat_val state ;;
     flatMapM (fun a =>
       inner <- func (value a) ;;
       haps <- query inner (setSpan state (part a)) ;;
       mapM (fun b =>
               w <- choose_whole (whole a) (whole b) ;;
               Ok (mkHap w (part b) (value b)
                         (assignContext (context a) (context b)))) haps)
       outer).
Proof. reflexivity. Qed.

(** X20. Binding a [pure] pattern: when [f(x)] is the pattern [q],
    [pure(x).innerBind(f)] answers every query as [q.splitQueries()] does,
    the events of [q] with their own wholes, parts, values and contexts;
    so [pure(q).innerJoin()] does. *)
Theorem innerBind_pure {A B} (f : A -> Res (Pattern B)) (x : A) (q : Pattern B) :
  f x = Ok q ->
  equiv (innerBind f (pure x)) (splitQueries q)
  /\ equiv (innerJoin (pure q)) (splitQueries q).
Proof.
  assert (H : forall {C} (g : C -> Res (Pattern B)) (y : C),
            g y = Ok q -> equiv (innerBind g (pure y)) (splitQueries q)).
  { intros C g y Hg state. unfold innerBind.
    rewrite query_bindWhole, query_splitQueries.
    cbn [query pure bind]. rewrite flatMapM_map.
    apply flatMapM_ext. intros piece _.
    cbn [value part whole context newHap]. rewrite Hg. cbn [bind].
    destruct (query q _) as [haps|e]; cbn [bind]; [|reflexivity].
    rewrite (mapM_ext _ (fun b => Ok b)).
    - rewrite mapM_Ok. f_equal. apply map_id_ext. reflexivity.
    - intros [w pt v c] _. cbn [bind whole part value context].
      rewrite assignContext_empty. reflexivity. }
  intros Hf. split; [exact (H A f x Hf)|].
  exact (H (Pattern B) (fun y => Ok y) q eq_refl).
Qed.

Lemma innerBind_pure_witness :
  equiv (innerBind (fun v => Ok (_fast (Num (frac 2 1)) (pure v))) (pure "x"%string))
        (splitQueries (_fast (Num (frac 2 1)) (pure "x"%string)))
  /\ equiv (innerJoin (pure (_fast (Num (frac 2 1)) (pure "x"%string))))
           (splitQueries (_fast (Num (frac 2 1)) (pure "x"%string))).
Proof.
  apply (innerBind_pure (fun v => Ok (_fast (Num (frac 2 1)) (pure v)))
           "x"%string (_fast (Num (frac 2 1)) (pure "x"%string))).
  reflexivity.
Defined.

(** X21. [p.outerBind(f)] takes the structure of [p]: every event returned
    has the whole of an event of [p] for the same query, and the value and
    the part of an event that the pattern made of its value returns over
    its part; the step count is that of [p]. *)
Theorem outerBind_wholes {A B} (f : A -> Res (Pattern B)) (p : Pattern A)
    state haps h :
  query (outerBind f p) state = Ok haps -> In h haps ->
  (exists outer a inner innerHaps b,
     query p state = Ok outer /\ In a outer
     /\ f (value a) = Ok inner
     /\ query inner (setSpan state (part a)) = Ok innerHaps /\ In b innerHaps
     /\ whole h = whole a /\ part h = part b /\ value h = value b)
  /\ _steps (outerBind f p) = _steps p.
Proof.
  intros E Hin. split; [|reflexivity].
  unfold outerBind in E. rewrite query_setSteps, query_bindWhole in E.
  destruct (query p state) as [outer|e]; cbn [bind] in E; [|discriminate E].
  destruct (flatMapM_In _ _ _ _ E Hin) as [a [hs [Ha [Ea Hh]]]].
  destruct (f (value a)) as [inner|e] eqn:Ef; cbn [bind] in Ea; [|discriminate Ea].
  destruct (query inner _) as [innerHaps|e] eqn:Ei; cbn [bind] in Ea;
    [|discriminate Ea].
  destruct (mapM_In _ _ _ _ Ea Hh) as [b [Hb Eb]].
  cbn [bind] in Eb. injection Eb as <-.
  exists outer, a, inner, innerHaps, b. repeat split; try assumption; reflexivity.
Qed.

Lemma outerBind_wholes_witness :
  (exists outer a inner innerHaps b,
     query (pure "x"%string) fourthCycle = Ok outer /\ In a outer
     /\ (fun v => Ok (steady v)) (value a) = Ok inner
     /\ query inner (setSpan fourthCycle (part a)) = Ok innerHaps /\ In b innerHaps
     /\ whole (newHap (Some (wholeCycle (begin (span fourthCycle))))
                      (span fourthCycle) "x"%string) = whole a
     /\ part (newHap (Some (wholeCycle (begin (span fourthCycle))))
                     (span fourthCycle) "x"%string) = part b
     /\ value (newHap (Some (wholeCycle (begin (span fourthCycle))))
                      (span fourthCycle) "x"%string) = value b)
  /\ _steps (outerBind (fun v => Ok (steady v)) (pure "x"%string))
     = _steps (pure "x"%string).
Proof.
  apply (outerBind_wholes (fun v => Ok (steady v)) (pure "x"%string) fourthCycle
           [newHap (Some (wholeCycle (begin (span fourthCycle))))
                   (span fourthCycle) "x"%string]).
  - unfold outerBind. rewrite query_setSteps, query_bindWhole.
    rewrite query_pure_single by qc_decide. reflexivity.
  - left. reflexivity.
Defined.
(* ================================================================== *)
(** * [pace], [expand] and [contract] *)

Lemma steps_withContext {A} (func : Context -> Context) (p : Pattern A) :
  _steps (withContext func p) = _steps p.
Proof. unfold withContext. destruct (__pure p); reflexivity. Qed.

Lemma patternified_Ok_false {A} (pat result r : Pattern A) :
  patternified false pat (Ok result) = Ok r ->
  _steps r = _steps result /\ forall state, query r state = query result state.
Proof.
  intros E. split.
  - rewrite (patternified_Ok _ _ _ _ E). cbn [preserve].
    apply steps_withContext.
  - intros state. apply (query_patternified _ _ _ _ _ E).
Qed.

Lemma pace_func_stepped {A} (n st : Qc) (p : Pattern A) :
  _steps p = Some st -> st <> 0 ->
  pace_func n p = Ok (setSteps (Some n) (_fast (Frac (n / st)) p)).
Proof.
  intros Hs Hst. unfold pace_func. rewrite Hs, (eq_false _ _ Hst).
  rewrite (div_nonzero _ _ Hst). reflexivity.
Qed.

(** X22. [p.pace(n)] for a pattern of [st] steps ([st] not zero) and a
    target [n] not zero: the result has [n] steps and answers every query as
    [p._fast(n / st)] does; with [n = st] it answers as [p] itself. *)
Theorem pace_steps {A} (n st : Qc) (p : Pattern A) :
  _steps p = Some st -> st <> 0 -> n <> 0 ->
  exists r, pace n p = Ok r /\ _steps r = Some n
    /\ equiv r (_fast (Frac (n / st)) p)
    /\ (n = st -> equiv r p).
Proof.
  intros Hs Hst Hn. unfold pace. rewrite (pace_func_stepped n st p Hs Hst).
  destruct (patternified false p _) as [r|] eqn:Er; [|discriminate Er].
  destruct (patternified_Ok_false _ _ _ Er) as [Hsteps Hq].
  exists r. split; [reflexivity|]. split; [exact Hsteps|]. split.
  - intros state. rewrite Hq. apply query_setSteps.
  - intros -> state. rewrite Hq, query_setSteps.
    assert (H1 : toFraction (Frac (st / st)) <> 0).
    { cbn [toFraction]. intros E.
      assert (H : st / st = 1) by (field; exact Hst).
      rewrite H in E. discriminate E. }
    rewrite (query__fast _ _ _ H1). cbn [toFraction].
    apply query_retime_id; intros u; qc_field.
Qed.

Lemma pace_steps_witness :
  exists r, pace (frac 4 1) (pure "x"%string) = Ok r
    /\ _steps r = Some (frac 4 1)
    /\ equiv r (_fast (Frac (frac 4 1 / 1)) (pure "x"%string))
    /\ (frac 4 1 = 1 -> equiv r (pure "x"%string)).
Proof.
  apply (pace_steps (frac 4 1) 1 (pure "x"%string)).
  - reflexivity.
  - discriminate.
  - intros H. apply Qc_eq_this in H. vm_compute in H. discriminate H.
Defined.

Lemma withSpan_div_zero {A} (h : Hap A) :
  HapOps.withSpan (withTime (fun t => Fraction.div t 0)) h
  = Throw (JsError "Division by Zero").
Proof. unfold HapOps.withSpan. destruct (whole h); reflexivity. Qed.

(** X23. [p.pace(0)] on a pattern with a non-zero step count speeds it up
    by the fraction zero: a query is passed on with both ends at time 0, and
    raises the division by zero as soon as [p] returns an event there; it
    returns no event otherwise. *)
Theorem pace_zero {A} (st : Qc) (p : Pattern A) state :
  _steps p = Some st -> st <> 0 ->
  exists r, pace 0 p = Ok r
    /\ query r state
       = (haps <- query p (setSpan state (mkTimeSpan 0 0)) ;;
          match haps with
          | [] => Ok []
          | _ :: _ => Throw (JsError "Division by Zero")
          end).
Proof.
  intros Hs Hst. unfold pace. rewrite (pace_func_stepped 0 st p Hs Hst).
  destruct (patternified false p _) as [r|] eqn:Er; [|discriminate Er].
  destruct (patternified_Ok_false _ _ _ Er) as [_ Hq].
  exists r. split; [reflexivity|]. rewrite Hq, query_setSteps.
  unfold _fast. rewrite query_preserve.
  replace (0 / st) with 0 by (field; exact Hst).
  unfold fast_func. cbn [isNumberZero toFraction query setSteps withHapTime
                         withHapSpan withQueryTime newPattern].
  rewrite withTime_Ok. cbn [bind].
  replace (mapSpan (fun t => t * 0) (span state)) with (mkTimeSpan 0 0)
    by (unfold mapSpan; f_equal; ring).
  destruct (query p _) as [[|h haps]|e]; cbn [bind mapM]; try reflexivity.
  rewrite withSpan_div_zero. reflexivity.
Qed.

Lemma pace_zero_witness :
  exists r, pace 0 (pure "x"%string) = Ok r
    /\ query r fourthCycle
       = (haps <- query (pure "x"%string) (setSpan fourthCycle (mkTimeSpan 0 0)) ;;
          match haps with
          | [] => Ok []
          | _ :: _ => Throw (JsError "Division by Zero")
          end).
Proof.
  apply (pace_zero 1 (pure "x"%string) fourthCycle).
  - reflexivity.
  - discriminate.
Defined.

(** X24. With step counting on, on a pattern of [st] steps:
    [p.expand(k).contract(k)] for a non-zero [k] has [st] steps again and
    answers every query as [p] does; [p.expand(k)] has [st * k] steps; and
    [p.contract(0)] raises the division by zero. *)
Theorem expand_contract {A} (k st : Qc) (p : Pattern A) :
  _steps p = Some st -> k <> 0 ->
  (exists r r', expand true k p = Ok r /\ _steps r = Some (st * k)
                /\ contract true k r = Ok r' /\ _steps r' = Some st
                /\ equiv r' p)
  /\ contract true 0 p = Throw (JsError "Division by Zero").
Proof.
  intros Hs Hk. split.
  - unfold expand, expand_func, withSteps. cbn [negb]. rewrite Hs. cbn [bind].
    destruct (patternified false p _) as [r|] eqn:Er; [|discriminate Er].
    destruct (patternified_Ok_false _ _ _ Er) as [Hsteps Hq].
    cbn [_steps newPattern] in Hsteps.
    assert (Ec : exists r', contract true k r = Ok r' /\ _steps r' = Some st
                            /\ equiv r' p).
    { unfold contract, contract_func, withSteps. cbn [negb]. rewrite Hsteps.
      rewrite (div_nonzero _ _ Hk). cbn [bind].
      destruct (patternified false r _) as [r'|] eqn:Er'; [|discriminate Er'].
      destruct (patternified_Ok_false _ _ _ Er') as [Hsteps' Hq'].
      cbn [_steps newPattern] in Hsteps'.
      exists r'. split; [reflexivity|]. split.
      - rewrite Hsteps'. f_equal. field. exact Hk.
      - intros state. rewrite Hq'. cbn [query newPattern]. rewrite Hq.
        reflexivity. }
    destruct Ec as [r' [E1 [E2 E3]]].
    exists r, r'. repeat (split; [first [reflexivity|assumption]|]). exact E3.
  - unfold contract, contract_func, withSteps. cbn [negb]. rewrite Hs.
    reflexivity.
Qed.

Lemma expand_contract_witness :
  (exists r r', expand true (frac 2 1) (pure "x"%string) = Ok r
                /\ _steps r = Some (1 * frac 2 1)
                /\ contract true (frac 2 1) r = Ok r' /\ _steps r' = Some 1
                /\ equiv r' (pure "x"%string))
  /\ contract true 0 (pure "x"%string) = Throw (JsError "Division by Zero").
Proof.
  apply (expand_contract (frac 2 1) 1 (pure "x"%string)).
  - reflexivity.
  - intros H. apply Qc_eq_this in H. vm_compute in H. discriminate H.
Defined.
(* ================================================================== *)
(** * [take] and [drop] *)

Lemma lte_false (x y : Qc) : Fraction.lte x y = false <-> y < x.
Proof.
  split; intros H.
  - apply Qcnot_le_lt. intros C. apply lte_spec in C. congruence.
  - destruct (Fraction.lte x y) eqn:E; [|reflexivity].
    apply lte_spec in E. destruct (Qcle_not_lt _ _ E H).
Qed.

Lemma gte_false (x y : Qc) : Fraction.gte x y = false <-> x < y.
Proof. apply lte_false. Qed.

Lemma query_nothing {A} state : query (@nothing A) state = Ok [].
Proof. reflexivity. Qed.

Lemma patternified_total {A} b (pat result : Pattern A) :
  exists r, patternified b pat (Ok result) = Ok r.
Proof. eexists. reflexivity. Qed.

(** [take] of the whole pattern or more. *)
Lemma take_func_all flag {A} (i st : Qc) (p : Pattern A) :
  _steps p = Some st -> 0 < st -> st <= Fraction.abs i ->
  take_func flag i p = Ok p.
Proof.
  intros Hs Hst Hi. unfold take_func. rewrite Hs.
  assert (Hst0 : st <> 0) by (intros E; rewrite E in Hst; exact (Qclt_not_eq _ _ Hst eq_refl)).
  rewrite (proj2 (lte_false _ _) Hst).
  assert (Hi0 : i <> 0).
  { intros E. rewrite E in Hi. unfold Fraction.abs in Hi. revert Hi.
    frac_cases; intros Hi; qc_lra. }
  rewrite (eq_false _ _ Hi0).
  set (i' := if Fraction.lt i 0 then Fraction.abs i else i).
  assert (Hi' : st <= i').
  { unfold i'. unfold Fraction.abs in *. revert Hi. frac_cases; intros Hi; qc_lra. }
  rewrite (div_nonzero _ _ Hst0). cbn [bind].
  assert (H1 : 1 <= i' / st).
  { apply Qcnot_lt_le. intros C.
    pose proof (Qcmult_lt_compat_r _ _ _ Hst C) as M.
    replace (i' / st * st) with i' in M by (field; exact Hst0).
    rewrite Qcmult_1_l in M. exact (Qcle_not_lt _ _ Hi' M). }
  rewrite (proj2 (lte_false _ _)) by qc_lra.
  rewrite (proj2 (gte_spec _ _) H1). reflexivity.
Qed.

Lemma take_func_zero flag {A} (st : Qc) (p : Pattern A) :
  _steps p = Some st -> take_func flag 0 p = Ok nothing.
Proof.
  intros Hs. unfold take_func. rewrite Hs.
  destruct (Fraction.lte st 0); [reflexivity|].
  rewrite eq_refl_true. reflexivity.
Qed.

(** X25. The ends of [take] and [drop], on a pattern with a positive step
    count [st]: [p.take(i)] with [i >= st] and [p.drop(0)] answer every
    query as [p] does and keep its step count; [p.take(0)] and [p.drop(st)]
    have no events. *)
Theorem take_drop_ends flag {A} (i st : Qc) (p : Pattern A) :
  _steps p = Some st -> 0 < st -> st <= i ->
  (exists r, take flag i p = Ok r /\ equiv r p /\ _steps r = Some st)
  /\ (exists r, drop flag 0 p = Ok r /\ equiv r p /\ _steps r = Some st)
  /\ (exists r, take flag 0 p = Ok r /\ silent r)
  /\ (exists r, drop flag st p = Ok r /\ silent r).
Proof.
  intros Hs Hst Hi.
  assert (Hall : forall j, st <= Fraction.abs j ->
            exists r, take flag j p = Ok r /\ equiv r p /\ _steps r = Some st).
  { intros j Hj. unfold take. rewrite (take_func_all flag j st p Hs Hst Hj).
    destruct (patternified_total false p p) as [r Er]. rewrite Er.
    destruct (patternified_Ok_false _ _ _ Er) as [Hsteps Hq].
    exists r. split; [reflexivity|]. split; [exact Hq|].
    rewrite Hsteps. exact Hs. }
  assert (Hnone : exists r, take flag 0 p = Ok r /\ silent r).
  { unfold take. rewrite (take_func_zero flag st p Hs).
    destruct (patternified_total false p nothing) as [r Er]. rewrite Er.
    destruct (patternified_Ok_false _ _ _ Er) as [_ Hq].
    exists r. split; [reflexivity|]. intros state. rewrite Hq. reflexivity. }
  split; [|split; [|split]].
  - apply Hall. unfold Fraction.abs. frac_cases; qc_lra.
  - destruct (Hall (0 - (st - 0))) as [r [Er [Hq Hsteps]]].
    { unfold Fraction.abs. frac_cases; qc_lra. }
    unfold drop, drop_func. rewrite Hs.
    rewrite (proj2 (lt_false _ _)) by apply Qcle_refl.
    rewrite Er. cbn [bind].
    destruct (patternified_total false p r) as [r' Er']. 
    unfold patternified in Er' |- *. cbn [bind] in Er' |- *.
    eexists. split; [reflexivity|]. split.
    + intros state. rewrite query_preserve, query_withContext_nil. apply Hq.
    + cbn [preserve]. rewrite steps_withContext. exact Hsteps.
  - exact Hnone.
  - destruct Hnone as [r [Er Hq]].
    unfold drop, drop_func. rewrite Hs.
    rewrite (proj2 (lt_false _ _)) by (apply Qclt_le_weak; exact Hst).
    replace (0 - (st - st)) with 0 by ring. rewrite Er.
    unfold patternified. cbn [bind].
    eexists. split; [reflexivity|].
    intros state. rewrite query_preserve, query_withContext_nil. apply Hq.
Qed.

Lemma take_drop_ends_witness :
  (exists r, take true (frac 2 1) (pure "x"%string) = Ok r
             /\ equiv r (pure "x"%string) /\ _steps r = Some 1)
  /\ (exists r, drop true 0 (pure "x"%string) = Ok r
                /\ equiv r (pure "x"%string) /\ _steps r = Some 1)
  /\ (exists r, take true 0 (pure "x"%string) = Ok r /\ silent r)
  /\ (exists r, drop true 1 (pure "x"%string) = Ok r /\ silent r).
Proof.
  apply (take_drop_ends true (frac 2 1) 1 (pure "x"%string)).
  - reflexivity.
  - qc_decide.
  - qc_decide.
Defined.

Lemma zoom_steps {A} (s e st : Qc) (p : Pattern A) :
  _steps p = Some st -> s < e ->
  exists r, zoom true s e p = Ok r /\ _steps r = Some (st * (e - s)).
Proof.
  intros Hs Hlt. unfold zoom.
  destruct (patternified_total false p (zoom_func true s e p)) as [r Er].
  rewrite Er. exists r. split; [reflexivity|].
  destruct (patternified_Ok_false _ _ _ Er) as [Hsteps _]. rewrite Hsteps.
  unfold zoom_func. rewrite (proj2 (gte_false _ _) Hlt), Hs. reflexivity.
Qed.

(** X26. With step counting on, on a pattern of [st] steps and for
    [0 < i < st]: [p.take(i)] has [i] steps and [p.drop(i)] has [st - i]. *)
Theorem take_drop_steps {A} (i st : Qc) (p : Pattern A) :
  _steps p = Some st -> 0 < i -> i < st ->
  (exists r, take true i p = Ok r /\ _steps r = Some i)
  /\ (exists r, drop true i p = Ok r /\ _steps r = Some (st - i)).
Proof.
  intros Hs Hi Hlt.
  assert (Hst : 0 < st) by qc_lra.
  assert (Hst0 : st <> 0) by (intros E; rewrite E in Hst; exact (Qclt_not_eq _ _ Hst eq_refl)).
  assert (Hfrac : forall j, 0 < j -> j < st -> 0 < j / st /\ j / st < 1).
  { intros j Hj Hjs.
    assert (E : j / st * st = j) by (field; exact Hst0).
    split; apply Qcnot_le_lt; intros C;
      pose proof (Qcmult_le_compat_r _ _ _ C (Qclt_le_weak _ _ Hst)) as M;
      rewrite E in M; rewrite ?Qcmult_0_l, ?Qcmult_1_l in M; qc_lra. }
  split.
  - destruct (Hfrac i Hi Hlt) as [F0 F1].
    destruct (zoom_steps 0 (i / st) st p Hs F0) as [z [Ez Hz]].
    unfold take, take_func. rewrite Hs.
    rewrite (proj2 (lte_false _ _) Hst).
    rewrite (eq_false i 0) by (intros E; rewrite E in Hi; exact (Qclt_not_eq _ _ Hi eq_refl)).
    rewrite (proj2 (lt_false _ _)) by (apply Qclt_le_weak; exact Hi).
    rewrite (div_nonzero _ _ Hst0). cbn [bind].
    rewrite (proj2 (lte_false _ _) F0), (proj2 (gte_false _ _) F1), Ez.
    unfold patternified. cbn [bind]. eexists. split; [reflexivity|].
    cbn [preserve]. rewrite steps_withContext, Hz. f_equal. field. exact Hst0.
  - assert (Hj : 0 < st - i) by qc_lra.
    assert (Hjs : st - i < st) by qc_lra.
    destruct (Hfrac (st - i) Hj Hjs) as [F0 F1].
    assert (Hz0 : 1 - (st - i) / st < 1) by qc_lra.
    destruct (zoom_steps (1 - (st - i) / st) 1 st p Hs Hz0) as [z [Ez Hz]].
    unfold drop, drop_func. rewrite Hs.
    rewrite (proj2 (lt_false _ _)) by (apply Qclt_le_weak; exact Hi).
    unfold take, take_func. rewrite Hs.
    rewrite (proj2 (lte_false _ _) Hst).
    rewrite (eq_false (0 - (st - i)) 0) by (intros E; qc_lra).
    rewrite (proj2 (lt_spec _ _)) by qc_lra.
    replace (Fraction.abs (0 - (st - i))) with (st - i)
      by (unfold Fraction.abs; rewrite (proj2 (lt_spec _ _)) by qc_lra; ring).
    rewrite (div_nonzero _ _ Hst0). cbn [bind].
    rewrite (proj2 (lte_false _ _) F0), (proj2 (gte_false _ _) F1), Ez.
    unfold patternified. cbn [bind]. eexists. split; [reflexivity|].
    cbn [preserve]. rewrite !steps_withContext, Hz. f_equal. field. exact Hst0.
Qed.

Lemma take_drop_steps_witness :
  (exists r, take true 1 (setSteps (Some (frac 4 1)) (pure "x"%string)) = Ok r
             /\ _steps r = Some 1)
  /\ (exists r, drop true 1 (setSteps (Some (frac 4 1)) (pure "x"%string)) = Ok r
                /\ _steps r = Some (frac 4 1 - 1)).
Proof.
  apply (take_drop_steps 1 (frac 4 1) (setSteps (Some (frac 4 1)) (pure "x"%string))).
  - reflexivity.
  - qc_decide.
  - qc_decide.
Defined.
(* ================================================================== *)
(** * [filter], [filterWhen] and [within] *)


Lemma filterM_Throw {A} (test : A -> Res bool) (xs : list A) (x : A) e :
  In x xs -> test x = Throw e -> exists e', filterM test xs = Throw e'.
Proof.
  induction xs as [|y xs IH]; intros Hin Hx; [destruct Hin|].
  cbn [filterM]. destruct Hin as [->|Hin].
  - rewrite Hx. eexists. reflexivity.
  - destruct (test y) as [keep|e0]; cbn [bind]; [|eexists; reflexivity].
    destruct (IH Hin Hx) as [e' ->]. eexists. reflexivity.
Qed.

Lemma query_filterWhen {A} (test : Qc -> bool) (p r : Pattern A) state :
  filterWhen test p = Ok r ->
  query r state
  = (haps <- query p state ;;
     filterM (fun h => match whole h with
                       | Some w => Ok (test (begin w))
                       | None => Throw (JsError
                           "Cannot read properties of undefined (reading 'begin')")
                       end) haps).
Proof.
  unfold filterWhen, filterWhen_func, filter_. intros E.
  destruct (patternified false p (Ok (filter_func _ p))) as [r0|] eqn:E0;
    [|discriminate E].
  rewrite (query_patternified _ _ _ _ _ E).
  rewrite (query_patternified _ _ _ _ _ E0). reflexivity.
Qed.

Lemma filterWhen_total {A} (test : Qc -> bool) (p : Pattern A) :
  exists r, filterWhen test p = Ok r.
Proof. eexists. reflexivity. Qed.



(** X28. [p.within(a, b, fn)] reads the begin of the whole of every event:
    a query on which [p] returns an event without whole (a continuous
    event) is never answered.  Either [fn] raises an exception when [within]
    is called, or the query of the result does. *)
Theorem within_continuous flag {A} (a b : Qc) (fn : Pattern A -> Res (Pattern A))
    (p : Pattern A) state haps h :
  query p state = Ok haps -> In h haps -> whole h = None ->
  (exists r e, within flag a b fn p = Ok r /\ query r state = Throw e)
  \/ (exists e, within flag a b fn p = Throw e).
Proof.
  intros Eq Hin Hw. unfold within, within_func.
  destruct (filterWhen_total (fun t => Fraction.gte (Fraction.cyclePos t) a
                                       && Fraction.lte (Fraction.cyclePos t) b) p)
    as [inner Ei].
  destruct (filterWhen_total (fun t => Fraction.lt (Fraction.cyclePos t) a
                                       || Fraction.gt (Fraction.cyclePos t) b) p)
    as [outer Eo].
  rewrite Ei. cbn [bind].
  destruct (fn inner) as [changed|e]; cbn [bind]; [|right; eexists; reflexivity].
  rewrite Eo. cbn [bind]. left.
  destruct (patternified_total false p (stack flag [changed; outer])) as [r Er].
  rewrite Er. exists r.
  assert (H : exists e, query r state = Throw e).
  { rewrite (query_patternified _ _ _ _ _ Er), query_stack.
    rewrite flatMapM_cons, (flatMapM_single (fun pat => query pat state)).
    destruct (query changed state) as [hs|e]; cbn [bind]; [|eexists; reflexivity].
    rewrite (query_filterWhen _ _ _ _ Eo), Eq. cbn [bind].
    match goal with
    | |- exists e, (zs <- filterM ?test haps ;; _) = Throw e =>
        destruct (filterM_Throw test haps h
                    (JsError "Cannot read properties of undefined (reading 'begin')")
                    Hin) as [e' ->]
    end.
    - rewrite Hw. reflexivity.
    - eexists. reflexivity. }
  destruct H as [e He]. exists e. split; [reflexivity|exact He].
Qed.

Lemma within_continuous_witness :
  (exists r e, within true 0 1 (fun x => Ok x) (steady "x"%string) = Ok r
               /\ query r fourthCycle = Throw e)
  \/ (exists e, within true 0 1 (fun x => Ok x) (steady "x"%string) = Throw e).
Proof.
  apply (within_continuous true 0 1 (fun x => Ok x) (steady "x"%string)
           fourthCycle [newHap None (span fourthCycle) "x"%string]
           (newHap None (span fourthCycle) "x"%string)).
  - reflexivity.
  - left. reflexivity.
  - reflexivity.
Defined.
(* ================================================================== *)
(** * [stepcat] and [polymeter] *)

Lemma compress_func_total {A} (b e : Qc) (pat : Pattern A) :
  e - b <> 0 -> exists r, compress_func b e pat = Ok r.
Proof.
  intros H. unfold compress_func.
  destruct (_ || _); [eexists; reflexivity|].
  rewrite (div_nonzero _ _ H). eexists. reflexivity.
Qed.

Lemma stepcat_loop_total {A} (total : Qc) (timepats : list (Qc * Pattern A)) :
  total <> 0 ->
  forall begin_, exists pats, stepcat_loop total begin_ timepats = Ok pats.
Proof.
  intros Ht. induction timepats as [|[time pat] rest IH]; intros begin_.
  - eexists. reflexivity.
  - cbn [stepcat_loop]. destruct (Fraction.eq time 0) eqn:E; [apply IH|].
    apply eq_false_iff in E.
    rewrite !(div_nonzero _ _ Ht). cbn [bind].
    destruct (compress_func_total (begin_ / total) ((begin_ + time) / total) pat)
      as [c Ec].
    { intros C. apply E.
      assert (H : time = ((begin_ + time) / total - begin_ / total) * total)
        by (field; exact Ht).
      rewrite H, C. ring. }
    unfold _compress, underscored. rewrite Ec. cbn [bind].
    destruct (IH (begin_ + time)) as [cs ->]. eexists. reflexivity.
Qed.

Lemma stepcat_timed flag {A} (timepats : list (Qc * Pattern A)) :
  timepats <> [] ->
  stepcat flag (map (fun tp => Timed (Some (fst tp)) (snd tp)) timepats)
  = stepcat_filled flag timepats.
Proof.
  intros Hne. unfold stepcat. rewrite length_map.
  replace (length timepats =? 0)%nat with false
    by (destruct timepats; [contradiction|reflexivity]).
  rewrite !map_map. cbn [findsteps fst snd].
  replace (existsb _ _) with false.
  - cbn [fst snd]. f_equal.
    apply map_id_ext. intros [t p]. reflexivity.
  - symmetry. clear Hne.
    induction timepats as [|x l IH]; [reflexivity|]. exact IH.
Qed.

(** X29. [stepcat] of two or more [[time, pattern]] pairs whose times do
    not add up to zero returns a pattern, and its step count is the sum of
    the times, whether step counting is on or off. *)
Theorem stepcat_steps flag {A} (timepats : list (Qc * Pattern A)) :
  (2 <= length timepats)%nat -> sumFractions (map fst timepats) <> 0 ->
  exists r,
    stepcat flag (map (fun tp => Timed (Some (fst tp)) (snd tp)) timepats) = Ok r
    /\ _steps r = Some (sumFractions (map fst timepats)).
Proof.
  intros Hlen Hsum.
  rewrite stepcat_timed by (intros E; rewrite E in Hlen; cbn in Hlen; lia).
  unfold stepcat_filled.
  destruct (stepcat_loop_total _ timepats Hsum 0) as [pats Ep].
  destruct timepats as [|tp1 [|tp2 rest]]; cbn [length] in Hlen; try lia.
  destruct tp1 as [t1 p1]. rewrite Ep. cbn [bind].
  eexists. split; reflexivity.
Qed.

Lemma stepcat_steps_witness :
  exists r,
    stepcat true (map (fun tp => Timed (Some (fst tp)) (snd tp))
                      [(frac 3 1, pure "a"%string); (1, pure "b"%string)]) = Ok r
    /\ _steps r = Some (sumFractions (map fst [(frac 3 1, pure "a"%string);
                                               (1, pure "b"%string)])).
Proof.
  apply (stepcat_steps true [(frac 3 1, pure "a"%string); (1, pure "b"%string)]).
  - simpl. lia.
  - intros H. apply Qc_eq_this in H. vm_compute in H. discriminate H.
Defined.

Lemma filter_all {A} (f : A -> bool) (xs : list A) :
  (forall x, In x xs -> f x = true) -> filter f xs = xs.
Proof.
  induction xs as [|x xs IH]; intros H; [reflexivity|].
  cbn [filter]. rewrite (H x (or_introl eq_refl)).
  rewrite IH by (intros y Hy; apply H; right; exact Hy). reflexivity.
Qed.

(** X30. [polymeter] of patterns that all have a non-zero step count, with
    the least common multiple [L] of the counts not zero: the result has
    [L] steps and answers every query with the events of every argument
    sped up by [L] over its own step count, in the order of the
    arguments. *)
Theorem polymeter_paced flag {A} (args : list (Pattern A)) (L : Qc) state :
  args <> [] ->
  (forall p, In p args -> exists st, _steps p = Some st /\ st <> 0) ->
  Fraction.lcm (map _steps args) = Some L -> L <> 0 ->
  exists r, polymeter flag args = Ok r /\ _steps r = Some L
    /\ query r state
       = flatMapM (fun p =>
                     query (_fast (Frac (L / match _steps p with
                                             | Some st => st
                                             | None => 1
                                             end)) p) state) args.
Proof.
  intros Hne Hs HL HL0. unfold polymeter.
  rewrite filter_all.
  2:{ intros p Hp. destruct (Hs p Hp) as [st [E _]]. unfold hasSteps.
      rewrite E. reflexivity. }
  destruct args as [|a0 rest] eqn:Eargs; [contradiction|].
  cbn [length Nat.eqb]. rewrite <- Eargs in *. rewrite HL, (eq_false _ _ HL0).
  set (g := fun p : Pattern A =>
              preserve false p
                (withContext (fun context =>
                                mkContext (locations context ++ []) (tags context))
                   (setSteps (Some L)
                      (_fast (Frac (L / match _steps p with
                                        | Some st => st
                                        | None => 1
                                        end)) p)))).
  rewrite (mapM_ext (pace L) (fun p => Ok (g p))).
  - rewrite mapM_Ok. cbn [bind]. eexists. split; [reflexivity|].
    split; [reflexivity|].
    rewrite query_setSteps, query_stack, flatMapM_map.
    apply flatMapM_ext. intros p _. unfold g.
    rewrite query_preserve, query_withContext_nil. apply query_setSteps.
  - intros p Hp. destruct (Hs p Hp) as [st [E Hst]].
    unfold pace. rewrite (pace_func_stepped L st p E Hst).
    unfold patternified. cbn [bind]. unfold g. rewrite E. reflexivity.
Qed.

Lemma polymeter_paced_witness :
  exists r,
    polymeter true [pure "a"%string; setSteps (Some (frac 2 1)) (pure "b"%string)]
    = Ok r
    /\ _steps r = Some (frac 2 1)
    /\ query r fourthCycle
       = flatMapM (fun p =>
                     query (_fast (Frac (frac 2 1 / match _steps p with
                                                    | Some st => st
                                                    | None => 1
                                                    end)) p) fourthCycle)
                  [pure "a"%string; setSteps (Some (frac 2 1)) (pure "b"%string)].
Proof.
  apply (polymeter_paced true
           [pure "a"%string; setSteps (Some (frac 2 1)) (pure "b"%string)]
           (frac 2 1) fourthCycle).
  - discriminate.
  - intros p [<-|[<-|[]]].
    + exists 1. split; [reflexivity|discriminate].
    + exists (frac 2 1). split; [reflexivity|].
      intros H. apply Qc_eq_this in H. vm_compute in H. discriminate H.
  - reflexivity.
  - intros H. apply Qc_eq_this in H. vm_compute in H. discriminate H.
Defined.
